(** * Session cleaner: a shallow embedding of [5-session-cleaner/main.go]

    The Go program keeps sessions in a map guarded by one mutex, and a
    background goroutine ([MangeSession]) removes the sessions that were
    not updated for five seconds.  The development below embeds the Go
    functions as programs over the primitive actions they perform (mutex,
    map, clock, entropy source, log, channel), gives those actions a
    semantics on an explicit world, and studies the store on that
    semantics. *)

From Stdlib Require Import ZArith Lia Strings.Byte Ascii String List.
From stdpp Require Import base option list gmap strings.

Local Open Scope Z_scope.

(** ** Data model *)

(** [interface{}] values held in a session's data; the store never looks
    inside them. *)
Inductive any : Type :=
| AnyNil
| AnyBool (b : bool)
| AnyInt (z : Z)
| AnyString (s : string).

(** A Go map value is a reference: [nil], or the address of a map object
    allocated by [make]. *)
Inductive MapRef : Type :=
| NilMap
| MapAt (l : positive).

#[global] Instance MapRef_eq_dec : EqDecision MapRef.
Proof. solve_decision. Defined.

(** [time.Time] is read on the monotonic clock, in nanoseconds. *)
Definition Nanosecond : Z := 1.
Definition Microsecond : Z := 1000 * Nanosecond.
Definition Second : Z := 1000000 * Microsecond.

Definition minDuration : Z := - 2 ^ 63.
Definition maxDuration : Z := 2 ^ 63 - 1.

(** [Time.Sub]: the difference, saturated to the range of [time.Duration]
    (an [int64] count of nanoseconds). *)
Definition Sub (t u : Z) : Z :=
  if t - u <? minDuration then minDuration
  else if maxDuration <? t - u then maxDuration
  else t - u.

(** [Session] of the source. *)
Record Session : Type := mkSession {
  Data : MapRef;
  LastUpdate : Z
}.

#[global] Instance Session_eq_dec : EqDecision Session.
Proof. solve_decision. Defined.

Inductive error : Type :=
| ErrSessionNotFound            (* errors.New("SessionID does not exist") *)
| ErrEOF                        (* io.EOF *)
| ErrUnexpectedEOF              (* io.ErrUnexpectedEOF *)
| ErrReader (msg : string).     (* any other failure of the entropy source *)

#[global] Instance error_eq_dec : EqDecision error.
Proof. solve_decision. Defined.

(** What the program writes with the [log] package. *)
Inductive LogRecord : Type :=
| LogStopping                           (* "Stopping session cleaner." *)
| LogDeleted (ids : list string).       (* "Deleted session IDs: %v" *)

(** One answer of [rand.Reader] to a request for bytes: the bytes it can
    supply, or the error it fails with. *)
Inductive Entropy : Type :=
| Supply (bs : list byte)
| Fail (e : error).

(** ** base64.StdEncoding *)

Module base64.

Definition encodeStd : string :=
  "ABCDEFGHIJKLMNOPQRSTUVWXYZabcdefghijklmnopqrstuvwxyz0123456789+/".

Definition StdPadding : ascii := "="%char.

Definition encode (i : Z) : ascii :=
  nth (Z.to_nat i) (list_ascii_of_string encodeStd) "A"%char.

Definition u (b : byte) : Z := Z.of_N (Byte.to_N b).

(** [Encoding.Encode] with the standard alphabet and padding: whole
    groups of three bytes give four characters, a remainder of one or
    two bytes gives a padded group. *)
Fixpoint Encode (src : list byte) : list ascii :=
  match src with
  | [] => []
  | b0 :: b1 :: b2 :: rest =>
      let val := Z.lor (Z.lor (Z.shiftl (u b0) 16) (Z.shiftl (u b1) 8)) (u b2) in
      encode (Z.land (Z.shiftr val 18) 63)
        :: encode (Z.land (Z.shiftr val 12) 63)
        :: encode (Z.land (Z.shiftr val 6) 63)
        :: encode (Z.land val 63)
        :: Encode rest
  | [b0; b1] =>
      let val := Z.lor (Z.shiftl (u b0) 16) (Z.shiftl (u b1) 8) in
      [encode (Z.land (Z.shiftr val 18) 63);
       encode (Z.land (Z.shiftr val 12) 63);
       encode (Z.land (Z.shiftr val 6) 63);
       StdPadding]
  | [b0] =>
      let val := Z.shiftl (u b0) 16 in
      [encode (Z.land (Z.shiftr val 18) 63);
       encode (Z.land (Z.shiftr val 12) 63);
       StdPadding;
       StdPadding]
  end.

Definition EncodeToString (src : list byte) : string :=
  string_of_list_ascii (Encode src).

(** [Encoding.EncodedLen] for a padded encoding. *)
Definition EncodedLen (n : nat) : nat := ((n + 2) / 3 * 4)%nat.

End base64.

(** ** Programs over primitive actions *)

(** The primitive steps the Go functions take, indexed by the type of
    what the step yields. *)
Inductive Action : Type -> Type :=
| Lock : Action unit                              (* m.sync.Lock() *)
| Unlock : Action unit                            (* m.sync.Unlock() *)
| MapLen : Action nat                             (* len(m.sessions) *)
| MapLoad (id : string) : Action (option Session) (* m.sessions[id] *)
| MapStore (id : string) (s : Session) : Action unit
| MapDelete (id : string) : Action unit           (* delete(m.sessions, id) *)
| MapRange : Action (list (string * Session))     (* range m.sessions *)
| MakeMap : Action MapRef                         (* make(map[string]interface{}) *)
| Now : Action Z                                  (* time.Now() *)
| ReadFull (n : nat) : Action (list byte * option error)
                                                  (* io.ReadFull(rand.Reader, buf) *)
| LogPrint (r : LogRecord) : Action unit
| Sleep (d : Z) : Action unit                     (* time.Sleep(d) *)
| SelectDone : Action bool    (* select { case <-m.done: true; default: false } *)
| SendDone : Action unit                          (* m.done <- true *)
| CloseDone : Action unit.                        (* close(m.done) *)

Inductive Prog (R : Type) : Type :=
| Ret (r : R)
| Act {X : Type} (a : Action X) (k : X -> Prog R).

Arguments Ret {R} r.
Arguments Act {R X} a k.

Fixpoint bind {A B : Type} (p : Prog A) (f : A -> Prog B) : Prog B :=
  match p with
  | Ret a => f a
  | Act a k => Act a (fun x => bind (k x) f)
  end.

Definition act {X : Type} (a : Action X) : Prog X := Act a Ret.

#[global] Instance Prog_ret : MRet Prog := @Ret.
#[global] Instance Prog_bind : MBind Prog := fun A B f p => bind p f.

(** ** The Go functions *)

Definition TTL : Z := 5 * Second.
Definition scanInterval : Z := 5 * Second.

(** [MakeSessionID]. *)
Definition MakeSessionID : Prog (string * option error) :=
  '(buf, err) ← act (ReadFull 26);
  match err with
  | Some e => Ret (EmptyString, Some e)
  | None => Ret (base64.EncodeToString buf, None)
  end.

(** [CreateSession]; the deferred [Unlock] runs on both returns. *)
Definition CreateSession : Prog (string * option error) :=
  act Lock;;
  '(sessionID, err) ← MakeSessionID;
  match err with
  | Some e =>
      act Unlock;;
      Ret (EmptyString, Some e)
  | None =>
      data ← act MakeMap;
      now ← act Now;
      act (MapStore sessionID {| Data := data; LastUpdate := now |});;
      act Unlock;;
      Ret (sessionID, None)
  end.

(** [GetSessionData]. *)
Definition GetSessionData (sessionID : string) : Prog (MapRef * option error) :=
  act Lock;;
  found ← act (MapLoad sessionID);
  match found with
  | None =>
      act Unlock;;
      Ret (NilMap, Some ErrSessionNotFound)
  | Some session =>
      act Unlock;;
      Ret (Data session, None)
  end.

(** [UpdateSessionData]. *)
Definition UpdateSessionData (sessionID : string) (data : MapRef)
  : Prog (option error) :=
  act Lock;;
  found ← act (MapLoad sessionID);
  match found with
  | None =>
      act Unlock;;
      Ret (Some ErrSessionNotFound)
  | Some session =>
      let session := {| Data := data; LastUpdate := LastUpdate session |} in
      now ← act Now;
      let session := {| Data := Data session; LastUpdate := now |} in
      act (MapStore sessionID session);;
      act Unlock;;
      Ret None
  end.

(** The first loop of the cleaner: [time.Since] is evaluated once per
    session, and the keys of the old sessions are appended to
    [deletedKeys]. *)
Fixpoint collectExpired (entries : list (string * Session))
    (deletedKeys : list string) : Prog (list string) :=
  match entries with
  | [] => Ret deletedKeys
  | (id, sess) :: rest =>
      now ← act Now;
      if 5 * Second <=? Sub now (LastUpdate sess)
      then collectExpired rest (deletedKeys ++ [id])
      else collectExpired rest deletedKeys
  end.

(** The second loop of the cleaner. *)
Fixpoint deleteKeys (deletedKeys : list string) : Prog unit :=
  match deletedKeys with
  | [] => Ret tt
  | key :: rest => act (MapDelete key);; deleteKeys rest
  end.

(** The locked part of one round of the cleaner (lines 119 to 145). *)
Definition cleanSessions : Prog unit :=
  act Lock;;
  n ← act MapLen;
  if (n =? 0)%nat then
    act Unlock
  else
    entries ← act MapRange;
    deletedKeys ← collectExpired entries [];
    deleteKeys deletedKeys;;
    (if (0 <? length deletedKeys)%nat
     then act (LogPrint (LogDeleted deletedKeys))
     else Ret tt);;
    act Unlock.

(** One round of the [for] loop of [MangeSession]: [false] is the
    [return], [true] goes round again. *)
Definition MangeSession_round : Prog bool :=
  stop ← act SelectDone;
  if stop : bool then
    act (LogPrint LogStopping);;
    Ret false
  else
    act (Sleep (5 * Second));;
    cleanSessions;;
    Ret true.

(** [StopSession]. *)
Definition StopSession : Prog unit :=
  act (Sleep (6 * Microsecond));;
  act SendDone;;
  act CloseDone.

(** ** The world the actions act on *)

Record World : Type := mkWorld {
  sessions : gmap string Session;          (* m.sessions *)
  locked : bool;                           (* m.sync *)
  done_closed : bool;                      (* m.done has been closed *)
  done_sendq : list nat;                   (* goroutines parked in a send on m.done *)
  heap : gmap positive (gmap string any);  (* the map objects made so far *)
  clock : Z;                               (* the monotonic clock *)
  rand_Reader : nat -> Entropy;            (* what the entropy source answers *)
  rand_reads : nat;                        (* how often it has been asked *)
  log_out : list LogRecord                 (* the log written so far *)
}.

Definition set_sessions (f : gmap string Session -> gmap string Session)
    (w : World) : World :=
  mkWorld (f (sessions w)) (locked w) (done_closed w) (done_sendq w) (heap w)
    (clock w) (rand_Reader w) (rand_reads w) (log_out w).

Definition set_locked (b : bool) (w : World) : World :=
  mkWorld (sessions w) b (done_closed w) (done_sendq w) (heap w)
    (clock w) (rand_Reader w) (rand_reads w) (log_out w).

Definition set_done (c : bool) (q : list nat) (w : World) : World :=
  mkWorld (sessions w) (locked w) c q (heap w)
    (clock w) (rand_Reader w) (rand_reads w) (log_out w).

Definition set_heap (h : gmap positive (gmap string any)) (w : World) : World :=
  mkWorld (sessions w) (locked w) (done_closed w) (done_sendq w) h
    (clock w) (rand_Reader w) (rand_reads w) (log_out w).

Definition set_clock (t : Z) (w : World) : World :=
  mkWorld (sessions w) (locked w) (done_closed w) (done_sendq w) (heap w)
    t (rand_Reader w) (rand_reads w) (log_out w).

Definition next_read (w : World) : World :=
  mkWorld (sessions w) (locked w) (done_closed w) (done_sendq w) (heap w)
    (clock w) (rand_Reader w) (S (rand_reads w)) (log_out w).

Definition add_log (r : LogRecord) (w : World) : World :=
  mkWorld (sessions w) (locked w) (done_closed w) (done_sendq w) (heap w)
    (clock w) (rand_Reader w) (rand_reads w) (log_out w ++ [r]).

(** [io.ReadFull] on a buffer of [n] bytes: the buffer is filled and the
    error is nil exactly when the source supplies [n] bytes; a source
    that supplies fewer ends the read with [io.EOF] (nothing read) or
    [io.ErrUnexpectedEOF]. *)
Definition readFull (n : nat) (e : Entropy) : list byte * option error :=
  match e with
  | Supply bs =>
      if (n <=? length bs)%nat then (take n bs, None)
      else (bs ++ replicate (n - length bs) "000"%byte,
            Some (match bs with [] => ErrEOF | _ => ErrUnexpectedEOF end))
  | Fail err => (replicate n "000"%byte, Some err)
  end.

Inductive Result (X : Type) : Type :=
| Done (x : X) (w : World)     (* the step was taken *)
| Wait                         (* the step cannot be taken now *)
| Fault (msg : string).        (* the step panics *)

Arguments Done {X} x w.
Arguments Wait {X}.
Arguments Fault {X} msg.

(** The effect of one action.  [Sleep] and [SendDone] suspend the
    goroutine; they are given their meaning with the goroutines below and
    are [Wait] here. *)
Definition handle {X : Type} (a : Action X) (w : World) : Result X :=
  match a in Action X return Result X with
  | Lock =>
      if locked w then Wait else Done tt (set_locked true w)
  | Unlock =>
      if locked w then Done tt (set_locked false w)
      else Fault "sync: unlock of unlocked mutex"
  | MapLen => Done (size (sessions w)) w
  | MapLoad id => Done (sessions w !! id) w
  | MapStore id s => Done tt (set_sessions (insert id s) w)
  | MapDelete id => Done tt (set_sessions (delete id) w)
  | MapRange => Done (map_to_list (sessions w)) w
  | MakeMap =>
      let l := fresh (dom (heap w)) in
      Done (MapAt l) (set_heap (<[l := ∅]> (heap w)) w)
  | Now => Done (clock w) w
  | ReadFull n => Done (readFull n (rand_Reader w (rand_reads w))) (next_read w)
  | LogPrint r => Done tt (add_log r w)
  | Sleep d => Wait
  | SelectDone =>
      if done_closed w then Done true w
      else match done_sendq w with
           | [] => Done false w
           | _ :: q => Done true (set_done false q w)
           end
  | SendDone => Wait
  | CloseDone =>
      if done_closed w then Fault "close of closed channel"
      else Done tt (set_done true (done_sendq w) w)
  end.

(** Running a program that never suspends, from its first action to its
    return. *)
Fixpoint exec {R : Type} (p : Prog R) (w : World) : Result R :=
  match p with
  | Ret r => Done r w
  | Act a k =>
      match handle a w with
      | Done x w' => exec (k x) w'
      | Wait => Wait
      | Fault msg => Fault msg
      end
  end.

(** ** Goroutines *)

(** A goroutine is about to run a program, inside [time.Sleep], parked in
    a channel send, returned, or panicked. *)
Inductive Goroutine (R : Type) : Type :=
| Ready (p : Prog R)
| Asleep (wake : Z) (p : Prog R)
| Parked (p : Prog R)
| Exited (r : R)
| Panicked (msg : string).

Arguments Ready {R} p.
Arguments Asleep {R} wake p.
Arguments Parked {R} p.
Arguments Exited {R} r.
Arguments Panicked {R} msg.

(** The actions at which a goroutine may be descheduled for another one
    to run: the mutex, the sleep, the channel operations, and the log
    record the cleaner writes after its receive, outside the mutex.
    Between [Lock] and [Unlock] a goroutine is run on: the others cannot
    take the mutex meanwhile, and what they do without it does not touch
    the map.  A return has no effect of its own and is taken with the
    action before it. *)
Definition yields {X : Type} (a : Action X) : bool :=
  match a with
  | Lock | Sleep _ | SelectDone | SendDone | CloseDone => true
  | LogPrint LogStopping => true
  | _ => false
  end.

(** Run up to the next such action, or to the return. *)
Fixpoint advance {R : Type} (p : Prog R) (w : World) : Goroutine R * World :=
  match p with
  | Ret r => (Exited r, w)
  | Act a k =>
      if yields a then (Ready (Act a k), w)
      else match handle a w with
           | Done x w' => advance (k x) w'
           | Wait => (Ready (Act a k), w)
           | Fault msg => (Panicked msg, w)
           end
  end.

(** Take the action at the head of goroutine [me], then run on. *)
Definition fire {R X : Type} (me : nat) (a : Action X) (k : X -> Prog R)
    (w : World) : option (Goroutine R * World) :=
  match a in Action X return (X -> Prog R) -> option (Goroutine R * World) with
  | Sleep d => fun k => Some (Asleep (clock w + d) (k tt), w)
  | SendDone => fun k =>
      if done_closed w then Some (Panicked "send on closed channel", w)
      else Some (Parked (k tt), set_done false (done_sendq w ++ [me]) w)
  | a => fun k =>
      match handle a w with
      | Done x w' => Some (advance (k x) w')
      | Wait => None
      | Fault msg => Some (Panicked msg, w)
      end
  end k.

(** One scheduling step of goroutine [me]; [None] when it cannot run. *)
Definition go_step {R : Type} (me : nat) (g : Goroutine R) (w : World)
  : option (Goroutine R * World) :=
  match g with
  | Ready (Ret r) => Some (Exited r, w)
  | Ready (Act a k) => fire me a k w
  | Asleep wake p =>
      if wake <=? clock w then Some (advance p w) else None
  | Parked p =>
      if bool_decide (me ∈ done_sendq w) then
        if done_closed w then Some (Panicked "send on closed channel", w)
        else None
      else Some (advance p w)
  | Exited _ => None
  | Panicked _ => None
  end.

(** ** The session manager with its goroutines *)

Record System : Type := mkSystem {
  world : World;
  cleaner : Goroutine bool;            (* go m.MangeSession() *)
  stoppers : list (Goroutine unit)     (* the calls of m.StopSession() *)
}.

(** The [for] of [MangeSession]: a round that ends with [true] is
    followed by the next round. *)
Definition MangeSession (g : Goroutine bool) : Goroutine bool :=
  match g with
  | Exited true => Ready MangeSession_round
  | _ => g
  end.

(** [NewSessionManager], on a given entropy source and clock reading. *)
Definition NewSessionManager (reader : nat -> Entropy) (start : Z) : System :=
  {| world := {| sessions := ∅; locked := false;
                 done_closed := false; done_sendq := [];
                 heap := ∅; clock := start;
                 rand_Reader := reader; rand_reads := 0;
                 log_out := [] |};
     cleaner := Ready MangeSession_round;
     stoppers := [] |}.

Inductive Event : Type :=
| Tick (d : Z)                               (* the clock advances by [d] *)
| CallCreate                                 (* a caller runs CreateSession *)
| CallGet (id : string)                      (* a caller runs GetSessionData *)
| CallUpdate (id : string) (data : MapRef)   (* a caller runs UpdateSessionData *)
| CallStop                                   (* a caller enters StopSession *)
| StepStop (i : nat)                         (* the [i]th StopSession call runs on *)
| StepCleaner.                               (* the cleaner goroutine runs on *)

Definition is_panicked {R : Type} (g : Goroutine R) : bool :=
  match g with Panicked _ => true | _ => false end.

(** An unrecovered panic in any goroutine ends the process. *)
Definition crashed (s : System) : bool :=
  is_panicked (cleaner s) || existsb is_panicked (stoppers s).

Definition with_world (w : World) (s : System) : System :=
  mkSystem w (cleaner s) (stoppers s).

Definition call {R : Type} (p : Prog R) (s : System) : option System :=
  match exec p (world s) with
  | Done _ w' => Some (with_world w' s)
  | _ => None
  end.

(** The cleaner is goroutine 0, the [i]th stop call is goroutine [S i]. *)
Definition step (e : Event) (s : System) : option System :=
  if crashed s then None else
  match e with
  | Tick d =>
      if 0 <=? d then Some (with_world (set_clock (clock (world s) + d) (world s)) s)
      else None
  | CallCreate => call CreateSession s
  | CallGet id => call (GetSessionData id) s
  | CallUpdate id data => call (UpdateSessionData id data) s
  | CallStop => Some (mkSystem (world s) (cleaner s) (stoppers s ++ [Ready StopSession]))
  | StepStop i =>
      g ← stoppers s !! i;
      '(g', w') ← go_step (S i) g (world s);
      Some (mkSystem w' (cleaner s) (<[i := g']> (stoppers s)))
  | StepCleaner =>
      '(g', w') ← go_step 0%nat (cleaner s) (world s);
      Some (mkSystem w' (MangeSession g') (stoppers s))
  end.

Fixpoint run (es : list Event) (s : System) : option System :=
  match es with
  | [] => Some s
  | e :: es' => s' ← step e s; run es' s'
  end.

(** ** The actions a program takes *)

Definition Step : Type := { X : Type & Action X }.

Definition did {X : Type} (a : Action X) : Step := existT X a.

(** The actions [exec] goes through, in order. *)
Fixpoint trace {R : Type} (p : Prog R) (w : World) : list Step :=
  match p with
  | Ret _ => []
  | Act a k =>
      did a :: match handle a w with
               | Done x w' => trace (k x) w'
               | _ => []
               end
  end.

Definition is_map_write (s : Step) : bool :=
  match projT2 s with
  | MapStore _ _ | MapDelete _ => true
  | _ => false
  end.


(** A session is old once [time.Since(LastUpdate) >= 5*time.Second]. *)
Definition expired (now : Z) (sess : Session) : bool :=
  5 * Second <=? Sub now (LastUpdate sess).

(** The keys the first loop of the cleaner collects from [entries]. *)
Definition expiredKeys (now : Z) (entries : list (string * Session)) : list string :=
  (filter (fun e => expired now e.2 = true) entries).*1.

(** ** The worlds the operations lead to *)

(** The world after a successful [CreateSession] that drew [id]. *)
Definition created (id : string) (w : World) : World :=
  let l := fresh (dom (heap w)) in
  set_sessions (insert id {| Data := MapAt l; LastUpdate := clock w |})
    (set_heap (<[l := ∅]> (heap w)) (next_read w)).

(** The world after a successful [UpdateSessionData]. *)
Definition updated (id : string) (data : MapRef) (w : World) : World :=
  set_sessions (insert id {| Data := data; LastUpdate := clock w |}) w.

(** The world after one locked pass of the cleaner. *)
Definition cleaned (w : World) : World :=
  if (size (sessions w) =? 0)%nat then w
  else
    let keys := expiredKeys (clock w) (map_to_list (sessions w)) in
    let w' := set_sessions (fun m => foldl (fun m k => delete k m) m keys) w in
    if (0 <? length keys)%nat then add_log (LogDeleted keys) w' else w'.


(** ** Concrete stores used in the examples *)

Definition bytes_of (s : string) : list byte :=
  byte_of_ascii <$> list_ascii_of_string s.

(** An entropy source that answers twice with fresh bytes, then fails
    once, and from then on repeats its first answer. *)
Definition demo_reader (n : nat) : Entropy :=
  match n with
  | 1%nat => Supply (bytes_of "ZYXWVUTSRQPONMLKJIHGFEDCBA")
  | 2%nat => Fail (ErrReader "getrandom: resource temporarily unavailable")
  | _ => Supply (bytes_of "abcdefghijklmnopqrstuvwxyz")
  end.

Definition demo_id : string := "YWJjZGVmZ2hpamtsbW5vcHFyc3R1dnd4eXo=".

Definition demo_store : System := NewSessionManager demo_reader 0.

(** The system a run leads to, for runs known to be possible. *)
Definition after (es : list Event) (s : System) : System :=
  default s (run es s).

(** A system is reachable when a run from a new session manager leads
    to it. *)
Definition reachable (s : System) : Prop :=
  exists reader start es, run es (NewSessionManager reader start) = Some s.

(** A store whose only session was created at time 0, seen at time 7s. *)
Definition stale_store : System :=
  after [CallCreate; Tick (7 * Second)] demo_store.

(** A store with one session, created at time 0 and given the map at
    address 9 as data one second later. *)
Definition busy_store : System :=
  after [CallCreate; Tick Second; CallUpdate demo_id (MapAt 9)] demo_store.

(** The same store two seconds on, when the entropy source repeats the
    bytes it gave for the first session. *)
Definition repeat_store : System :=
  after [CallCreate; CallCreate; Tick Second; CallUpdate demo_id (MapAt 9);
         CallCreate; Tick Second] demo_store.

(** ** Where the goroutines can be *)

(** The rest of a round of the cleaner after the [default] branch was
    taken, and after the sleep. *)
Definition round_sleep : Prog bool :=
  act (Sleep (5 * Second));;
  cleanSessions;;
  Ret true.

Definition round_clean : Prog bool :=
  cleanSessions;;
  Ret true.

(** The rest of a round after the receive from [m.done]. *)
Definition round_log : Prog bool :=
  act (LogPrint LogStopping);;
  Ret false.

(** The rest of [StopSession] after the sleep, and after the send. *)
Definition stop_send : Prog unit :=
  act SendDone;;
  act CloseDone.

Definition stop_close : Prog unit := act CloseDone.

Inductive CleanerPhase : Type :=
| AtSelect                  (* at the select of a round *)
| AtSleep                   (* about to call time.Sleep *)
| Sleeping (wake : Z)       (* inside time.Sleep *)
| AtClean                   (* about to lock the mutex and clean *)
| AtLog                     (* has received from m.done, about to log *)
| Returned.                 (* MangeSession has returned *)

Definition cleaner_in (ph : CleanerPhase) : Goroutine bool :=
  match ph with
  | AtSelect => Ready MangeSession_round
  | AtSleep => Ready round_sleep
  | Sleeping wake => Asleep wake round_clean
  | AtClean => Ready round_clean
  | AtLog => Ready round_log
  | Returned => Exited false
  end.

Inductive StopperPhase : Type :=
| Entering                  (* StopSession has been called *)
| Napping (wake : Z)        (* inside time.Sleep *)
| AtSend                    (* about to send on m.done *)
| InSend                    (* parked in the send *)
| AtClose                   (* the send is over, about to close m.done *)
| Left                      (* StopSession has returned *)
| Blown (msg : string).     (* StopSession has panicked *)

Definition stopper_in (ph : StopperPhase) : Goroutine unit :=
  match ph with
  | Entering => Ready StopSession
  | Napping wake => Asleep wake stop_send
  | AtSend => Ready stop_send
  | InSend => Parked stop_close
  | AtClose => Ready stop_close
  | Left => Exited tt
  | Blown msg => Panicked msg
  end.

(** What a scheduling step does to the cleaner, phase by phase. *)
Definition cleaner_next (ph : CleanerPhase) (w : World)
  : option (CleanerPhase * World) :=
  match ph with
  | AtSelect =>
      if done_closed w then Some (AtLog, w)
      else match done_sendq w with
           | [] => Some (AtSleep, w)
           | _ :: q => Some (AtLog, set_done false q w)
           end
  | AtSleep => Some (Sleeping (clock w + 5 * Second), w)
  | Sleeping wake => if wake <=? clock w then Some (AtClean, w) else None
  | AtClean => if locked w then None else Some (AtSelect, cleaned w)
  | AtLog => Some (Returned, add_log LogStopping w)
  | Returned => None
  end.

(** The cleaner has left its loop: it has received from [m.done] and
    makes no further pass. *)
Definition stopped (ph : CleanerPhase) : bool :=
  match ph with
  | AtLog | Returned => true
  | _ => false
  end.

(** What a scheduling step does to a call of StopSession run by
    goroutine [me]. *)
Definition stopper_next (me : nat) (ph : StopperPhase) (w : World)
  : option (StopperPhase * World) :=
  match ph with
  | Entering => Some (Napping (clock w + 6 * Microsecond), w)
  | Napping wake => if wake <=? clock w then Some (AtSend, w) else None
  | AtSend =>
      if done_closed w then Some (Blown "send on closed channel", w)
      else Some (InSend, set_done false (done_sendq w ++ [me]) w)
  | InSend =>
      if bool_decide (me ∈ done_sendq w) then
        if done_closed w then Some (Blown "send on closed channel", w) else None
      else Some (AtClose, w)
  | AtClose =>
      if done_closed w then Some (Blown "close of closed channel", w)
      else Some (Left, set_done true (done_sendq w) w)
  | Left => None
  | Blown _ => None
  end.

(** A program without mutex, sleep and channel actions. *)
Fixpoint quiet {R : Type} (p : Prog R) : Prop :=
  match p with
  | Ret _ => True
  | Act a k => yields a = false /\ forall x, quiet (k x)
  end.

(** What holds of every system a run from [NewSessionManager] leads to:
    the mutex is free between scheduling steps, no session is stamped in
    the future, the goroutines are at one of their phases, and a stop
    call gets past its send only by the cleaner receiving it, after
    which the cleaner has left its loop. *)
Record Inv (s : System) : Prop := mkInv {
  inv_free : locked (world s) = false;
  inv_past : forall id sess,
    sessions (world s) !! id = Some sess -> LastUpdate sess <= clock (world s);
  inv_cleaner : exists ph, cleaner s = cleaner_in ph;
  inv_stoppers : forall i g,
    stoppers s !! i = Some g -> exists ph, g = stopper_in ph;
  inv_sent : forall i,
    stoppers s !! i = Some (stopper_in InSend) ->
    S i ∈ done_sendq (world s)
    \/ exists ph, cleaner s = cleaner_in ph /\ stopped ph = true;
  inv_received : forall i,
    stoppers s !! i = Some (stopper_in AtClose)
    \/ stoppers s !! i = Some (stopper_in Left) ->
    exists ph, cleaner s = cleaner_in ph /\ stopped ph = true
}.

(** Whether the run [es] is possible from [s]. *)
Definition possible (es : list Event) (s : System) : bool :=
  match run es s with Some _ => true | None => false end.

(** A first call of StopSession that is received by the cleaner and
    returns, followed by a second call. *)
Definition stop_once : list Event :=
  [CallStop; StepStop 0; Tick (6 * Microsecond); StepStop 0; StepStop 0;
   StepCleaner; StepStop 0; StepStop 0].

Definition stop_twice : list Event :=
  stop_once
    ++ [CallStop; StepStop 1; Tick (6 * Microsecond); StepStop 1; StepStop 1].

(** The phases a stop call can be in when it was made after [m.done] was
    closed. *)
Definition late_phase (ph : StopperPhase) : Prop :=
  ph = Entering \/ (exists wake, ph = Napping wake) \/ ph = AtSend
  \/ ph = Blown "send on closed channel".

(** A session is created, the cleaner goes to sleep and StopSession is
    called at once; the call is parked in its send. *)
Definition teardown_parked : list Event :=
  [CallCreate; StepCleaner; StepCleaner;
   CallStop; StepStop 0; Tick (6 * Microsecond); StepStop 0; StepStop 0].

(** The run goes on: the sleep ends, the cleaner cleans and receives the
    signal at its next select, and StopSession returns. *)
Definition teardown_run : list Event :=
  teardown_parked
    ++ [Tick (5 * Second - 6 * Microsecond); StepCleaner; StepCleaner;
        StepCleaner; StepStop 0; StepStop 0].

(** ** The mutex discipline *)

(** How an action fits the discipline, given whether the goroutine holds
    the mutex: [None] when the action is not allowed there, otherwise
    whether the mutex is held afterwards.  The map is touched only with
    the mutex held, and so are the entropy source, the clock and the
    allocation of maps; sleeps and channel operations happen only
    without it.  The [strict] discipline also forbids input and output
    (reading the entropy source, writing the log) with the mutex held. *)
Definition after_action {X : Type} (strict : bool) (a : Action X) (held : bool)
  : option bool :=
  match a with
  | Lock => if held then None else Some true
  | Unlock => if held then Some false else None
  | MapLen | MapLoad _ | MapStore _ _ | MapDelete _ | MapRange =>
      if held then Some true else None
  | Sleep _ | SelectDone | SendDone | CloseDone =>
      if held then None else Some false
  | ReadFull _ =>
      if held then (if strict then None else Some true) else None
  | LogPrint _ =>
      if strict && held then None else Some held
  | MakeMap | Now => if held then Some true else None
  end.

(** A program that keeps the discipline on every path, started with the
    mutex [held] or not and ending with it [final]ly held or not. *)
Fixpoint guarded_to {R : Type} (strict held final : bool) (p : Prog R) : Prop :=
  match p with
  | Ret _ => held = final
  | Act a k =>
      match after_action strict a held with
      | Some held' => forall x, guarded_to strict held' final (k x)
      | None => False
      end
  end.

Definition guarded {R : Type} (strict held : bool) (p : Prog R) : Prop :=
  guarded_to strict held false p.

(** A program with its result dropped. *)
Definition void {R : Type} (p : Prog R) : Prog unit := bind p (fun _ => Ret tt).

(** Goroutines interleaved action by action: each one is a program with
    the note whether it holds the mutex. *)
Abbreviation Pool := (list (bool * Prog unit)).


(** For the interleaving the sleep and the send are steps without effect
    on the world. *)
Definition fine_handle {X : Type} (a : Action X) (w : World) : Result X :=
  match a in Action X return Result X with
  | Sleep _ => Done tt w
  | SendDone => if done_closed w then Fault "send on closed channel" else Done tt w
  | a => handle a w
  end.






(** ** Locked sections taken as a whole *)






Definition set_log (l : list LogRecord) (w : World) : World :=
  mkWorld (sessions w) (locked w) (done_closed w) (done_sendq w) (heap w)
    (clock w) (rand_Reader w) (rand_reads w) l.

(** Two worlds that differ at most in the order of the log: the
    sessions, the mutex, the channel, the map objects, the clock and the
    entropy source are the same. *)
Definition alike (w v : World) : Prop := set_log [] w = set_log [] v.







(** ** Runs in which a session is left alone, and runs on time *)




(** How often StopSession is called in a run. *)
Definition is_call_stop (e : Event) : bool :=
  match e with CallStop => true | _ => false end.

Definition stop_calls (es : list Event) : nat :=
  length (List.filter is_call_stop es).









(** An ID is issued in a world when it is the encoding of 26 bytes that
    the entropy source supplied at one of the reads made so far. *)
Definition issued (w : World) (id : string) : Prop :=
  exists n buf,
    (n < rand_reads w)%nat
    /\ readFull 26 (rand_Reader w n) = (buf, None)
    /\ id = base64.EncodeToString buf.

(** What holds while StopSession has been called at most once: nothing
    has panicked, and the channel is closed only when the call has
    returned. *)
Record Calm (s : System) : Prop := mkCalm {
  calm_inv : Inv s;
  calm_ok : crashed s = false;
  calm_one : (length (stoppers s) <= 1)%nat;
  calm_closed : done_closed (world s) = true -> stoppers s = [stopper_in Left]
}.

(** The events that only read: a call of GetSessionData, and the clock
    advancing. *)
Definition is_read (e : Event) : bool :=
  match e with
  | CallGet _ | Tick _ => true
  | _ => false
  end.

(** What holds of the cleaner after a pass made at time [c]: the next
    pass is not before [c + 5s]. *)
Definition next_pass_after (c : Z) (s : System) : Prop :=
  exists ph,
    cleaner s = cleaner_in ph
    /\ match ph with
       | AtSelect | AtSleep => c <= clock (world s)
       | Sleeping wake => c + 5 * Second <= wake
       | AtClean => c + 5 * Second <= clock (world s)
       | AtLog | Returned => True
       end.

(** A number that tells the phases of the cleaner apart by the state of
    the goroutine and the action it is about to take. *)
Definition phase_tag (g : Goroutine bool) : nat :=
  match g with
  | Ready (Act SelectDone _) => 0
  | Ready (Act (Sleep _) _) => 1
  | Asleep _ _ => 2
  | Ready (Act Lock _) => 3
  | Exited _ => 4
  | _ => 5
  end.

(** ** An entropy source that does not repeat itself *)




(** A program of actions that are taken with the mutex held and leave it
    held. *)
Fixpoint body {R : Type} (p : Prog R) : Prop :=
  match p with
  | Ret _ => True
  | Act a k => after_action false a true = Some true /\ forall x, body (k x)
  end.


(** * The service time limit: [3-limit-service-time/main.go] *)

Module limit.

(** [User] of the source; [ID] is an [int], [TimeUsed] an [int64] count
    of seconds. *)
Record User : Type := mkUser {
  ID : Z;
  IsPremium : bool;
  TimeUsed : Z
}.

(** Arithmetic on [int64] wraps around. *)
Definition wrap64 (z : Z) : Z := (z + 2 ^ 63) mod 2 ^ 64 - 2 ^ 63.

(** The case the [select] of the loop takes in one round: the receive
    from [done], or the receive from the timer of [time.After].
    [elapsed] is the time since [startTime] at which the case is taken,
    in nanoseconds, and [taken] is the value of
    [int64(time.Since(startTime).Seconds())] there. *)
Inductive Fired : Type :=
| FromDone (elapsed taken : Z)
| FromTimer (elapsed taken : Z).

(** [u.TimeUsed += int64(timeTaken)]. *)
Definition addTime (u : User) (taken : Z) : User :=
  {| ID := ID u; IsPremium := IsPremium u;
     TimeUsed := wrap64 (TimeUsed u + taken) |}.

(** [timeRemaining] as computed before the loop. *)
Definition timeRemaining (u : User) : Z :=
  let timeRemaining := wrap64 (10 - TimeUsed u) in
  if timeRemaining <? 0 then 0 else timeRemaining.

(** The duration given to [time.After]:
    [time.Second * time.Duration(timeRemaining)]. *)
Definition timeout (u : User) : Z := wrap64 (Second * timeRemaining u).

(** The [for] loop with its [select], on the cases taken round by
    round: the result when the loop returns, and the user. *)
Fixpoint selectLoop (u : User) (fired : list Fired) : option bool * User :=
  match fired with
  | [] => (None, u)
  | FromDone _ taken :: _ =>
      (Some true, if IsPremium u then u else addTime u taken)
  | FromTimer _ taken :: rest =>
      if IsPremium u then selectLoop u rest
      else (Some false, addTime u taken)
  end.

(** What a call of [HandleRequest] comes to: the value returned, if the
    call returns, the user afterwards, and whether the goroutine that
    runs [process] was started. *)
Record Outcome : Type := mkOutcome {
  returned : option bool;
  user : User;
  started : bool
}.

(** [HandleRequest]. *)
Definition HandleRequest (u : User) (fired : list Fired) : Outcome :=
  if negb (IsPremium u) && (10 <=? TimeUsed u) then
    {| returned := Some false; user := u; started := false |}
  else
    let r := selectLoop u fired in
    {| returned := r.1; user := r.2; started := true |}.

(** [int64(d.Seconds())] for a duration [d] of [elapsed] nanoseconds:
    the seconds are computed in floating point, as the whole seconds
    plus the rest over 1e9, so the value is the number of whole seconds
    or, when the sum rounds up, one more. *)
Definition seconds_of (elapsed taken : Z) : Prop :=
  elapsed / Second <= taken <= elapsed / Second + 1.

(** The cases a run of the loop can take, for a timer of duration [d]
    set anew when a round starts at time [since]: a timer does not fire
    before its duration is over, time does not go back, and the elapsed
    time is a [time.Duration]. *)
Fixpoint plausible (d since : Z) (fired : list Fired) : Prop :=
  match fired with
  | [] => True
  | FromDone elapsed taken :: _ =>
      since <= elapsed <= maxDuration /\ seconds_of elapsed taken
  | FromTimer elapsed taken :: rest =>
      since + Z.max 0 d <= elapsed <= maxDuration
      /\ seconds_of elapsed taken
      /\ plausible d elapsed rest
  end.

Definition is_done (f : Fired) : bool :=
  match f with FromDone _ _ => true | FromTimer _ _ => false end.

End limit.

(** * The second program of [5-session-cleaner/main.go]: stopping on SIGINT *)

Module sigint.

(** The goroutine started first: it waits for a signal on [sigChan],
    starts the second goroutine and calls [proc.Stop()]. *)
Inductive Handler : Type :=
| HWait            (* in <-sigChan *)
| HReceived        (* has received, about to run the go statement *)
| HSpawned         (* has started the second goroutine, about to call proc.Stop() *)
| HStopping        (* inside proc.Stop() *)
| HDone.           (* proc.Stop() has returned *)

(** The goroutine started by the first one: it waits for another signal
    and sends on [forceQuitChan]. *)
Inductive Forcer : Type :=
| FNone            (* not started *)
| FWait            (* in <-sigChan *)
| FSend            (* in forceQuitChan <- true *)
| FDone.

Inductive Main : Type :=
| MWait            (* in <-forceQuitChan *)
| MReceived        (* about to call os.Exit(0) *)
| MExited.

Record State : Type := mkState {
  pending : bool;     (* sigChan, of capacity 1, holds a signal *)
  handler : Handler;
  forcer : Forcer;
  main : Main;
  stops : nat;        (* calls of proc.Stop() so far *)
  delivered : nat     (* interrupts delivered to the process so far *)
}.

(** The state after [signal.Notify] and the [go] statement of [main]. *)
Definition init : State :=
  {| pending := false; handler := HWait; forcer := FNone; main := MWait;
     stops := 0; delivered := 0 |}.

Inductive Event : Type :=
| Interrupt        (* the process gets a SIGINT *)
| StepHandler      (* the first goroutine takes its next statement *)
| StepForcer       (* the second goroutine takes its next statement *)
| StopReturns      (* proc.Stop() returns *)
| StepMain.        (* main takes its next statement *)

(** [signal.Notify] sends without blocking: a signal that finds the
    channel full is dropped.  The send on [forceQuitChan], which has no
    buffer, is taken together with the receive of [main].  [os.Exit]
    ends all goroutines. *)
Definition step (e : Event) (s : State) : option State :=
  match main s with
  | MExited => None
  | _ =>
      match e with
      | Interrupt =>
          Some (mkState true (handler s) (forcer s) (main s) (stops s)
                  (S (delivered s)))
      | StepHandler =>
          match handler s with
          | HWait =>
              if pending s then
                Some (mkState false HReceived (forcer s) (main s) (stops s)
                        (delivered s))
              else None
          | HReceived =>
              Some (mkState (pending s) HSpawned FWait (main s) (stops s)
                      (delivered s))
          | HSpawned =>
              Some (mkState (pending s) HStopping (forcer s) (main s)
                      (S (stops s)) (delivered s))
          | _ => None
          end
      | StopReturns =>
          match handler s with
          | HStopping =>
              Some (mkState (pending s) HDone (forcer s) (main s) (stops s)
                      (delivered s))
          | _ => None
          end
      | StepForcer =>
          match forcer s with
          | FWait =>
              if pending s then
                Some (mkState false (handler s) FSend (main s) (stops s)
                        (delivered s))
              else None
          | FSend =>
              match main s with
              | MWait =>
                  Some (mkState (pending s) (handler s) FDone MReceived (stops s)
                          (delivered s))
              | _ => None
              end
          | _ => None
          end
      | StepMain =>
          match main s with
          | MReceived =>
              Some (mkState (pending s) (handler s) (forcer s) MExited (stops s)
                      (delivered s))
          | _ => None
          end
      end
  end.

Fixpoint run (es : list Event) (s : State) : option State :=
  match es with
  | [] => Some s
  | e :: es' => s' ← step e s; run es' s'
  end.

(** How many signals have been received from [sigChan] or wait in it. *)
Definition accounted (s : State) : nat :=
  ((if pending s then 1 else 0)
   + match handler s with HWait => 0 | _ => 1 end
   + match forcer s with FSend | FDone => 1 | _ => 0 end)%nat.

(** Whether [proc.Stop()] has been called. *)
Definition stop_called (h : Handler) : bool :=
  match h with
  | HStopping | HDone => true
  | _ => false
  end.

(** The second goroutine exists once the first has run its go
    statement, and [main] is past its receive once the second is past
    its send. *)
Definition consistent (h : Handler) (f : Forcer) (m : Main) : bool :=
  match h, f with
  | (HWait | HReceived), FNone => true
  | (HWait | HReceived), _ => false
  | _, FNone => false
  | _, _ => true
  end
  && match m, f with
     | MWait, FDone => false
     | MWait, _ => true
     | _, FDone => true
     | _, _ => false
     end.

Record Inv (s : State) : Prop := mkInv {
  inv_signals : (accounted s <= delivered s)%nat;
  inv_stops : stops s = (if stop_called (handler s) then 1 else 0)%nat;
  inv_consistent : consistent (handler s) (forcer s) (main s) = true
}.

(** The events that end the program from state [s]: the interrupts still
    needed, and the steps of the goroutines that react to them. *)
Definition force_quit (s : State) : list Event :=
  match main s with
  | MExited => []
  | MReceived => [StepMain]
  | MWait =>
      match handler s with
      | HWait => [Interrupt; StepHandler; StepHandler]
      | HReceived => [StepHandler]
      | _ => []
      end
      ++ match forcer s with
         | FSend => [StepForcer; StepMain]
         | _ => [Interrupt; StepForcer; StepForcer; StepMain]
         end
  end.

Fixpoint interrupts (es : list Event) : nat :=
  match es with
  | [] => 0
  | Interrupt :: es' => S (interrupts es')
  | _ :: es' => interrupts es'
  end.

Definition is_stop_returns (e : Event) : bool :=
  match e with StopReturns => true | _ => false end.

(** Two interrupts of which the second comes before the first goroutine
    has called [proc.Stop()]. *)
Definition early_quit : list Event :=
  [Interrupt; StepHandler; StepHandler; Interrupt;
   StepForcer; StepForcer; StepMain].

End sigint.

(** * Properties *)

(** ** Basic facts *)

Lemma Sub_ge_TTL (t u : Z) : 5 * Second <= Sub t u <-> TTL <= t - u.
Proof.
  unfold Sub, TTL, minDuration, maxDuration, Second, Microsecond, Nanosecond.
  destruct (Z.ltb_spec (t - u) (- 2 ^ 63)); [lia|].
  destruct (Z.ltb_spec (2 ^ 63 - 1) (t - u)); lia.
Qed.

Lemma expired_true (now : Z) (sess : Session) :
  expired now sess = true <-> TTL <= now - LastUpdate sess.
Proof. unfold expired. rewrite Z.leb_le. apply Sub_ge_TTL. Qed.


Lemma exec_bind {A B : Type} (p : Prog A) (f : A -> Prog B) (w : World) :
  exec (bind p f) w =
  match exec p w with
  | Done x w' => exec (f x) w'
  | Wait => Wait
  | Fault msg => Fault msg
  end.
Proof.
  revert w. induction p as [a|X a k IH]; intros w; simpl; [done|].
  destruct (handle a w); auto.
Qed.

Lemma exec_mbind {A B : Type} (p : Prog A) (f : A -> Prog B) (w : World) :
  exec (p ≫= f) w =
  match exec p w with
  | Done x w' => exec (f x) w'
  | Wait => Wait
  | Fault msg => Fault msg
  end.
Proof. apply exec_bind. Qed.


Lemma world_eta (w : World) :
  mkWorld (sessions w) (locked w) (done_closed w) (done_sendq w) (heap w)
    (clock w) (rand_Reader w) (rand_reads w) (log_out w) = w.
Proof. by destruct w. Qed.

Lemma unlock_lock (w : World) :
  locked w = false -> set_locked false (set_locked true w) = w.
Proof. destruct w; simpl; intros ->; done. Qed.

(** The first loop of the cleaner only reads the clock. *)
Lemma exec_collectExpired (entries : list (string * Session))
    (acc : list string) (w : World) :
  exec (collectExpired entries acc) w
  = Done (acc ++ expiredKeys (clock w) entries) w.
Proof.
  revert acc. induction entries as [|[id sess] rest IH]; intros acc.
  - simpl. by rewrite app_nil_r.
  - change (exec (collectExpired ((id, sess) :: rest) acc) w)
      with (exec (if expired (clock w) sess
                  then collectExpired rest (acc ++ [id])
                  else collectExpired rest acc) w).
    unfold expiredKeys. rewrite filter_cons. simpl.
    destruct (expired (clock w) sess) eqn:E.
    + rewrite decide_True by done. rewrite IH. unfold expiredKeys.
      by rewrite <- app_assoc.
    + rewrite decide_False by (by intros ?). apply IH.
Qed.


(** The second loop of the cleaner deletes the keys one after the other. *)
Lemma exec_deleteKeys (keys : list string) (w : World) :
  exec (deleteKeys keys) w
  = Done tt (set_sessions (fun m => foldl (fun m k => delete k m) m keys) w).
Proof.
  revert w. induction keys as [|key rest IH]; intros w.
  - simpl. by destruct w.
  - cbn. change (exec (deleteKeys rest) (set_sessions (delete key) w)
                 = Done tt (set_sessions
                     (fun m => foldl (fun m k => delete k m) (delete key m) rest) w)).
    rewrite IH. by destruct w.
Qed.


Lemma lookup_foldl_delete (keys : list string) (m : gmap string Session)
    (id : string) :
  foldl (fun m k => delete k m) m keys !! id
  = if bool_decide (id ∈ keys) then None else m !! id.
Proof.
  revert m. induction keys as [|key rest IH]; intros m; simpl.
  - done.
  - rewrite IH. destruct (decide (id = key)) as [->|Hne].
    + rewrite lookup_delete_eq.
      rewrite (bool_decide_true (key ∈ key :: rest)) by (apply elem_of_cons; auto).
      by destruct (bool_decide _).
    + rewrite lookup_delete_ne by done.
      destruct (decide (id ∈ rest)).
      * by rewrite !bool_decide_true by (try apply elem_of_cons; auto).
      * rewrite !bool_decide_false; [done| |done].
        apply not_elem_of_cons; auto.
Qed.

Lemma elem_of_expiredKeys (now : Z) (m : gmap string Session) (id : string) :
  id ∈ expiredKeys now (map_to_list m)
  <-> exists sess, m !! id = Some sess /\ expired now sess = true.
Proof.
  unfold expiredKeys. rewrite list_elem_of_fmap. split.
  - intros [[k sess] [-> Hin]]. apply list_elem_of_filter in Hin as [He Hin].
    apply elem_of_map_to_list in Hin. eauto.
  - intros [sess [Hl He]]. exists (id, sess). split; [done|].
    apply list_elem_of_filter. split; [done|]. by apply elem_of_map_to_list.
Qed.

(** ** What each operation does to an unlocked world *)

Lemma exec_MakeSessionID (w : World) :
  exec MakeSessionID w
  = match readFull 26 (rand_Reader w (rand_reads w)) with
    | (_, Some e) => Done (EmptyString, Some e) (next_read w)
    | (buf, None) => Done (base64.EncodeToString buf, None) (next_read w)
    end.
Proof.
  unfold MakeSessionID. cbn.
  by destruct (readFull 26 (rand_Reader w (rand_reads w))) as [buf [e|]].
Qed.

Lemma exec_CreateSession (w : World) :
  locked w = false ->
  exec CreateSession w
  = match readFull 26 (rand_Reader w (rand_reads w)) with
    | (_, Some e) => Done (EmptyString, Some e) (next_read w)
    | (buf, None) =>
        Done (base64.EncodeToString buf, None)
             (created (base64.EncodeToString buf) w)
    end.
Proof.
  intros Hfree. unfold CreateSession, MakeSessionID. cbn. rewrite Hfree. cbn.
  destruct (readFull 26 (rand_Reader w (rand_reads w))) as [buf [e|]]; cbn;
    destruct w; simpl in *; subst; reflexivity.
Qed.

Lemma exec_GetSessionData (id : string) (w : World) :
  locked w = false ->
  exec (GetSessionData id) w
  = match sessions w !! id with
    | Some session => Done (Data session, None) w
    | None => Done (NilMap, Some ErrSessionNotFound) w
    end.
Proof.
  intros Hfree. unfold GetSessionData. cbn. rewrite Hfree. cbn.
  destruct (sessions w !! id); cbn; by rewrite unlock_lock.
Qed.

Lemma exec_UpdateSessionData (id : string) (data : MapRef) (w : World) :
  locked w = false ->
  exec (UpdateSessionData id data) w
  = match sessions w !! id with
    | Some _ => Done None (updated id data w)
    | None => Done (Some ErrSessionNotFound) w
    end.
Proof.
  intros Hfree. unfold UpdateSessionData. cbn. rewrite Hfree. cbn.
  destruct (sessions w !! id); cbn.
  - destruct w; simpl in *; subst; reflexivity.
  - by rewrite unlock_lock.
Qed.

Lemma exec_cleanSessions (w : World) :
  locked w = false -> exec cleanSessions w = Done tt (cleaned w).
Proof.
  intros Hfree. unfold cleanSessions, cleaned. cbn. rewrite Hfree. cbn.
  destruct (size (sessions w) =? 0)%nat.
  - cbn. by rewrite unlock_lock.
  - simpl exec. rewrite exec_mbind, exec_collectExpired. simpl app.
    rewrite exec_mbind, exec_deleteKeys.
    destruct (length (expiredKeys (clock w) (map_to_list (sessions w)))); cbn;
      destruct w; simpl in *; subst; reflexivity.
Qed.

Lemma sessions_cleaned (w : World) (id : string) :
  sessions (cleaned w) !! id
  = match sessions w !! id with
    | Some sess => if expired (clock w) sess then None else Some sess
    | None => None
    end.
Proof.
  unfold cleaned. destruct (size (sessions w) =? 0)%nat eqn:Hsz.
  - apply Nat.eqb_eq, map_size_empty_inv in Hsz. rewrite Hsz.
    by rewrite lookup_empty.
  - assert (sessions
              (set_sessions
                 (fun m => foldl (fun m k => delete k m) m
                   (expiredKeys (clock w) (map_to_list (sessions w)))) w) !! id
            = match sessions w !! id with
              | Some sess => if expired (clock w) sess then None else Some sess
              | None => None
              end) as Hgoal.
    { simpl. rewrite lookup_foldl_delete.
      destruct (sessions w !! id) as [sess|] eqn:Hl.
      - destruct (expired (clock w) sess) eqn:He.
        + rewrite bool_decide_true; [done|].
          apply elem_of_expiredKeys. eauto.
        + rewrite bool_decide_false; [done|].
          rewrite elem_of_expiredKeys. intros [s' [Hs' He']]. congruence.
      - by destruct (bool_decide _). }
    destruct (0 <? length _)%nat; exact Hgoal.
Qed.






Module base64_facts.
Import base64.

Lemma length_string_of_list_ascii (l : list ascii) :
  String.length (string_of_list_ascii l) = length l.
Proof. induction l; simpl; congruence. Qed.

Lemma EncodedLen_step (n : nat) :
  EncodedLen (S (S (S n))) = S (S (S (S (EncodedLen n)))).
Proof.
  unfold EncodedLen.
  replace (S (S (S n)) + 2)%nat with (1 * 3 + (n + 2))%nat by lia.
  rewrite Nat.div_add_l by lia. lia.
Qed.

Lemma Encode_length_aux (n : nat) :
  forall src, (length src <= n)%nat -> length (Encode src) = EncodedLen (length src).
Proof.
  induction n as [|n IH]; intros src Hlen.
  - destruct src; [done|simpl in Hlen; lia].
  - destruct src as [|b0 [|b1 [|b2 rest]]]; try done.
    cbn [Encode length]. rewrite EncodedLen_step.
    do 4 f_equal. apply IH. simpl in Hlen. lia.
Qed.

(** The padded encoding of [n] bytes has [EncodedLen n] characters. *)
Lemma EncodeToString_length (src : list byte) :
  String.length (EncodeToString src) = EncodedLen (length src).
Proof.
  unfold EncodeToString. rewrite length_string_of_list_ascii.
  by apply (Encode_length_aux (length src)).
Qed.

End base64_facts.

(** [io.ReadFull] returns a nil error exactly with a full buffer. *)
Lemma readFull_ok (n : nat) (e : Entropy) (buf : list byte) :
  readFull n e = (buf, None) ->
  length buf = n /\ exists bs, e = Supply bs /\ buf = take n bs.
Proof.
  destruct e as [bs|err]; simpl; [|done].
  destruct (Nat.leb_spec n (length bs)); [|done].
  intros [= <-]. split; [|eauto]. rewrite length_take. lia.
Qed.

(** ** CreateSession *)

(** C4: a call of CreateSession asks the entropy source once for 26
    bytes and does not ask again.  The call fails exactly when the
    source does not supply 26 bytes: it then returns the error of the
    read with the empty ID, as MakeSessionID does, and the sessions and
    the map objects are as before.  Otherwise it succeeds: it returns
    the padded base64 encoding of the 26 bytes (36 characters) as the
    ID, and the sessions are those before with a session stored under
    this ID whose data is a newly made empty map and whose LastUpdate is
    the current time. *)
Theorem CreateSession_spec (w : World) :
  locked w = false ->
  exists id err w',
    exec CreateSession w = Done (id, err) w'
    /\ exec MakeSessionID w = Done (id, err) (next_read w)
    /\ rand_reads w' = S (rand_reads w)
    /\ (err = None
        <-> exists bs,
              rand_Reader w (rand_reads w) = Supply bs /\ (26 <= length bs)%nat)
    /\ match readFull 26 (rand_Reader w (rand_reads w)) with
       | (_, Some e) =>
           err = Some e /\ id = EmptyString
           /\ sessions w' = sessions w /\ heap w' = heap w
       | (buf, None) =>
           err = None
           /\ length buf = 26%nat
           /\ id = base64.EncodeToString buf
           /\ String.length id = 36%nat
           /\ (exists l,
                 heap w !! l = None
                 /\ heap w' !! l = Some ∅
                 /\ sessions w'
                    = <[id := {| Data := MapAt l; LastUpdate := clock w |}]>
                        (sessions w))
       end.
Proof.
  intros Hfree.
  rewrite exec_CreateSession, exec_MakeSessionID by done.
  destruct (readFull 26 (rand_Reader w (rand_reads w))) as [buf [e|]] eqn:Hread.
  - exists EmptyString, (Some e), (next_read w). simpl.
    repeat split; try done.
    intros (bs & Hbs & Hlen). rewrite Hbs in Hread. unfold readFull in Hread.
    destruct (Nat.leb_spec 26 (length bs)); [discriminate|lia].
  - exists (base64.EncodeToString buf), None,
      (created (base64.EncodeToString buf) w). simpl.
    destruct (readFull_ok _ _ _ Hread) as [Hlen (bs & Hbs & _)].
    repeat split; try done.
    + intros _. exists bs. split; [done|].
      rewrite Hbs in Hread. unfold readFull in Hread.
      destruct (Nat.leb_spec 26 (length bs)); [done|discriminate].
    + rewrite base64_facts.EncodeToString_length, Hlen. reflexivity.
    + exists (fresh (dom (heap w))). repeat split.
      * apply not_elem_of_dom, is_fresh.
      * apply lookup_insert_eq.
Qed.

Lemma CreateSession_spec_witness :
  locked (world demo_store) = false
  /\ exists w',
       exec CreateSession (world demo_store) = Done (demo_id, None) w'
       /\ rand_reads w' = 1%nat
       /\ exists l,
            heap w' !! l = Some ∅
            /\ sessions w' !! demo_id
               = Some {| Data := MapAt l; LastUpdate := 0 |}.
Proof.
  split; [reflexivity|].
  destruct (CreateSession_spec (world demo_store) eq_refl)
    as (id & err & w' & Hexec & _ & Hreads & _ & Hcase).
  assert (readFull 26 (rand_Reader (world demo_store) (rand_reads (world demo_store)))
          = (bytes_of "abcdefghijklmnopqrstuvwxyz", None)) as Hread
    by (vm_compute; reflexivity).
  rewrite Hread in Hcase.
  destruct Hcase as (-> & _ & -> & _ & l & _ & Hheap & Hsess).
  exists w'. split; [exact Hexec|]. split; [exact Hreads|].
  exists l. split; [exact Hheap|].
  rewrite Hsess. apply lookup_insert_eq.
Defined.

Example EncodeToString_rfc4648 :
  base64.EncodeToString (bytes_of "foobar") = "Zm9vYmFy"%string
  /\ base64.EncodeToString (bytes_of "fooba") = "Zm9vYmE="%string
  /\ base64.EncodeToString (bytes_of "foob") = "Zm9vYg=="%string
  /\ base64.EncodeToString (bytes_of "abcdefghijklmnopqrstuvwxyz") = demo_id.
Proof. repeat split; vm_compute; reflexivity. Qed.

(** ** GetSessionData and UpdateSessionData *)

Lemma locked_cleaned (w : World) : locked (cleaned w) = locked w.
Proof.
  unfold cleaned. destruct (size (sessions w) =? 0)%nat; [done|].
  by destruct (0 <? length _)%nat.
Qed.

(** C5: on an ID that is not in the store, because it never was or
    because a pass of the cleaner removed its session, GetSessionData
    returns a nil map with ErrSessionNotFound and UpdateSessionData
    returns ErrSessionNotFound; neither changes the world. *)
Theorem not_found_symmetry (w : World) (id : string) (data : MapRef) :
  locked w = false ->
  (sessions w !! id = None
   \/ exists w0 sess,
        locked w0 = false
        /\ sessions w0 !! id = Some sess
        /\ TTL <= clock w0 - LastUpdate sess
        /\ w = cleaned w0) ->
  exec (GetSessionData id) w = Done (NilMap, Some ErrSessionNotFound) w
  /\ exec (UpdateSessionData id data) w = Done (Some ErrSessionNotFound) w.
Proof.
  intros Hfree Habsent.
  assert (sessions w !! id = None) as Hnone.
  { destruct Habsent as [H|(w0 & sess & _ & Hl & Hold & ->)]; [done|].
    rewrite sessions_cleaned, Hl.
    by rewrite (proj2 (expired_true (clock w0) sess) Hold). }
  rewrite exec_GetSessionData, exec_UpdateSessionData by done.
  by rewrite Hnone.
Qed.

Lemma not_found_symmetry_witness :
  let w := cleaned (world stale_store) in
  locked w = false
  /\ (sessions w !! demo_id = None
      \/ exists w0 sess,
           locked w0 = false
           /\ sessions w0 !! demo_id = Some sess
           /\ TTL <= clock w0 - LastUpdate sess
           /\ w = cleaned w0)
  /\ exec (GetSessionData demo_id) w = Done (NilMap, Some ErrSessionNotFound) w
  /\ exec (UpdateSessionData demo_id (MapAt 3)) w
     = Done (Some ErrSessionNotFound) w.
Proof.
  assert (locked (cleaned (world stale_store)) = false) as Hfree
    by (vm_compute; reflexivity).
  assert (exists w0 sess,
           locked w0 = false
           /\ sessions w0 !! demo_id = Some sess
           /\ TTL <= clock w0 - LastUpdate sess
           /\ cleaned (world stale_store) = cleaned w0) as Hgone.
  { exists (world stale_store), {| Data := MapAt 1; LastUpdate := 0 |}.
    repeat split; vm_compute; congruence. }
  split; [exact Hfree|]. split; [right; exact Hgone|].
  apply (not_found_symmetry (cleaned (world stale_store)) demo_id (MapAt 3) Hfree).
  right. exact Hgone.
Defined.

(** C6: when UpdateSessionData on an ID with data d returns a nil error,
    a GetSessionData on that ID that comes next returns d with a nil
    error. *)
Theorem read_after_write (w w' : World) (id : string) (d : MapRef) :
  locked w = false ->
  exec (UpdateSessionData id d) w = Done None w' ->
  exec (GetSessionData id) w' = Done (d, None) w'.
Proof.
  intros Hfree. rewrite exec_UpdateSessionData by done.
  destruct (sessions w !! id) as [old|]; [|done].
  intros [= <-]. rewrite exec_GetSessionData by done.
  unfold updated. simpl. by rewrite lookup_insert_eq.
Qed.

Lemma read_after_write_witness :
  let w := world (after [CallCreate; Tick Second] demo_store) in
  locked w = false
  /\ exec (UpdateSessionData demo_id (MapAt 9)) w = Done None (world busy_store)
  /\ exec (GetSessionData demo_id) (world busy_store)
     = Done (MapAt 9, None) (world busy_store).
Proof.
  assert (locked (world (after [CallCreate; Tick Second] demo_store)) = false)
    as Hfree by reflexivity.
  assert (exec (UpdateSessionData demo_id (MapAt 9))
            (world (after [CallCreate; Tick Second] demo_store))
          = Done None (world busy_store)) as Hupd by (vm_compute; reflexivity).
  split; [exact Hfree|]. split; [exact Hupd|].
  exact (read_after_write _ _ demo_id (MapAt 9) Hfree Hupd).
Defined.

(** ** The cleaner's pass *)



(** ** What the operations leave alone *)

(** CreateSession does not look whether the ID it draws is in use: when
    the entropy source repeats an answer, the session stored under the
    ID is overwritten. *)
Lemma CreateSession_collision :
  ~ (forall (w w' : World) (id : string) (err : option error),
       locked w = false ->
       exec CreateSession w = Done (id, err) w' ->
       forall id0 sess,
         sessions w !! id0 = Some sess -> sessions w' !! id0 = Some sess).
Proof.
  intros Hclaim.
  assert (exec CreateSession (world repeat_store)
          = Done (demo_id, None) (created demo_id (world repeat_store))) as Hexec
    by (vm_compute; reflexivity).
  assert (sessions (world repeat_store) !! demo_id
          = Some {| Data := MapAt 9; LastUpdate := 1 * Second |}) as Hold
    by (vm_compute; reflexivity).
  assert (sessions (created demo_id (world repeat_store)) !! demo_id
          = Some {| Data := MapAt 3; LastUpdate := 2 * Second |}) as Hnew
    by (vm_compute; reflexivity).
  specialize (Hclaim (world repeat_store) _ demo_id None eq_refl Hexec
                demo_id _ Hold).
  rewrite Hnew in Hclaim. by injection Hclaim.
Qed.


(** ** The goroutines, phase by phase *)

Lemma advance_bind_quiet {A B : Type} (p : Prog A) (f : A -> Prog B)
    (w w' : World) (x : A) :
  quiet p -> exec p w = Done x w' ->
  advance (bind p f) w = advance (f x) w'.
Proof.
  revert w. induction p as [a|X a k IH]; intros w Hq Hexec; simpl in *.
  - by injection Hexec as -> ->.
  - destruct Hq as [Hy Hq]. rewrite Hy.
    destruct (handle a w) as [y w1| |]; [|done..].
    by apply IH.
Qed.

Lemma advance_bind2_quiet {A B C : Type} (p : Prog A) (f : A -> Prog B)
    (g : B -> Prog C) (w w' : World) (x : A) :
  quiet p -> exec p w = Done x w' ->
  advance (bind (bind p f) g) w = advance (bind (f x) g) w'.
Proof.
  revert w. induction p as [a|X a k IH]; intros w Hq Hexec; simpl in *.
  - by injection Hexec as -> ->.
  - destruct Hq as [Hy Hq]. rewrite Hy.
    destruct (handle a w) as [y w1| |]; [|done..].
    by apply IH.
Qed.

Lemma quiet_collectExpired (entries : list (string * Session)) (acc : list string) :
  quiet (collectExpired entries acc).
Proof.
  revert acc. induction entries as [|[id sess] rest IH]; intros acc; [done|].
  split; [done|]. intros now. cbn -[Z.mul].
  destruct (5 * Second <=? Sub now (LastUpdate sess)); apply IH.
Qed.

Lemma quiet_deleteKeys (keys : list string) : quiet (deleteKeys keys).
Proof.
  induction keys as [|key rest IH]; [done|].
  split; [done|]. intros []. apply IH.
Qed.

Lemma go_step_clean (w : World) :
  locked w = false ->
  go_step 0 (Ready round_clean) w = Some (Exited true, cleaned w).
Proof.
  intros Hfree. unfold round_clean, cleanSessions, cleaned. cbn.
  rewrite Hfree. cbn.
  destruct (size (sessions w) =? 0)%nat.
  - cbn. by rewrite unlock_lock.
  - simpl advance.
    change (collectExpired ?e ?a ≫= ?f) with (bind (collectExpired e a) f).
    erewrite advance_bind2_quiet;
      [|apply quiet_collectExpired|apply exec_collectExpired].
    simpl app.
    change (deleteKeys ?ks ≫= ?f) with (bind (deleteKeys ks) f).
    erewrite advance_bind2_quiet;
      [|apply quiet_deleteKeys|apply exec_deleteKeys].
    destruct (length (expiredKeys (clock w) (map_to_list (sessions w)))); cbn;
      destruct w; simpl in *; subst; reflexivity.
Qed.

Lemma cleaner_refines (ph : CleanerPhase) (w : World) :
  locked w = false ->
  prod_map MangeSession id <$> go_step 0 (cleaner_in ph) w
  = prod_map cleaner_in id <$> cleaner_next ph w.
Proof.
  intros Hfree. destruct ph as [| |wake| | |]; simpl cleaner_in; simpl cleaner_next.
  - unfold MangeSession_round. cbn.
    destruct (done_closed w); [done|]. by destruct (done_sendq w).
  - reflexivity.
  - cbn -[Z.mul]. by destruct (wake <=? clock w).
  - rewrite go_step_clean, Hfree by done. reflexivity.
  - reflexivity.
  - reflexivity.
Qed.

Lemma stopper_refines (me : nat) (ph : StopperPhase) (w : World) :
  go_step me (stopper_in ph) w = prod_map stopper_in id <$> stopper_next me ph w.
Proof.
  destruct ph as [|wake| | | | |msg]; simpl stopper_in; simpl stopper_next.
  - reflexivity.
  - cbn -[Z.mul]. by destruct (wake <=? clock w).
  - cbn. by destruct (done_closed w).
  - cbn. destruct (bool_decide _); [|done]. by destruct (done_closed w).
  - cbn. by destruct (done_closed w).
  - reflexivity.
  - reflexivity.
Qed.

Lemma cleaner_in_inj (ph ph' : CleanerPhase) :
  cleaner_in ph = cleaner_in ph' -> ph = ph'.
Proof.
  destruct ph, ph'; simpl; intros H; try done; try (by injection H as ->).
  all: exfalso; revert H; unfold MangeSession_round, round_sleep, round_clean,
    round_log, cleanSessions; cbn; intros H; inversion H.
Qed.

Lemma stopper_in_inj (ph ph' : StopperPhase) :
  stopper_in ph = stopper_in ph' -> ph = ph'.
Proof.
  destruct ph, ph'; simpl; intros H; try done; try (by injection H as ->).
  all: exfalso; revert H; unfold StopSession, stop_send, stop_close;
    cbn; intros H; inversion H.
Qed.

Lemma stopper_some_inj (ph ph' : StopperPhase) :
  Some (stopper_in ph) = Some (stopper_in ph') -> ph = ph'.
Proof. intros [= H]. by apply stopper_in_inj. Qed.

Lemma step_cleaner (s : System) (ph : CleanerPhase) :
  crashed s = false -> locked (world s) = false -> cleaner s = cleaner_in ph ->
  step StepCleaner s
  = (fun r => mkSystem r.2 (cleaner_in r.1) (stoppers s))
      <$> cleaner_next ph (world s).
Proof.
  intros Hok Hfree Hph. unfold step. rewrite Hok. simpl. rewrite Hph.
  pose proof (cleaner_refines ph (world s) Hfree) as Href.
  destruct (go_step 0 (cleaner_in ph) (world s)) as [[g' w']|],
    (cleaner_next ph (world s)) as [[ph' w'']|]; simpl in *; try done.
  by injection Href as -> ->.
Qed.

Lemma step_stopper (s : System) (i : nat) (ph : StopperPhase) :
  crashed s = false -> stoppers s !! i = Some (stopper_in ph) ->
  step (StepStop i) s
  = (fun r => mkSystem r.2 (cleaner s) (<[i := stopper_in r.1]> (stoppers s)))
      <$> stopper_next (S i) ph (world s).
Proof.
  intros Hok Hph. unfold step. rewrite Hok. simpl. rewrite Hph. simpl.
  rewrite stopper_refines.
  by destruct (stopper_next (S i) ph (world s)) as [[ph' w']|].
Qed.

Lemma step_call {R : Type} (p : Prog R) (s s' : System) :
  call p s = Some s' ->
  exists r, exec p (world s) = Done r (world s')
            /\ cleaner s' = cleaner s /\ stoppers s' = stoppers s.
Proof.
  unfold call. destruct (exec p (world s)) as [r w'| |]; [|done..].
  intros [= <-]. by exists r.
Qed.

Lemma step_not_crashed (e : Event) (s s' : System) :
  step e s = Some s' -> crashed s = false.
Proof. unfold step. by destruct (crashed s). Qed.

Lemma Inv_NewSessionManager (reader : nat -> Entropy) (start : Z) :
  Inv (NewSessionManager reader start).
Proof.
  split; simpl; try done.
  - by exists AtSelect.
  - intros i [H|H]; done.
Qed.

Lemma stopped_next (ph ph' : CleanerPhase) (w w' : World) :
  stopped ph = true -> cleaner_next ph w = Some (ph', w') -> stopped ph' = true.
Proof. destruct ph; simpl; try done. by intros _ [= <- _]. Qed.

Lemma Inv_step (e : Event) (s s' : System) :
  Inv s -> step e s = Some s' -> Inv s'.
Proof.
  intros [Hfree Hpast [cph Hc] Hst Hsent Hrecv] Hstep.
  pose proof (step_not_crashed _ _ _ Hstep) as Hok.
  destruct e as [d| |id|id data| |i|].
  - (* Tick *)
    unfold step in Hstep. rewrite Hok in Hstep.
    destruct (Z.leb_spec 0 d); [|done]. injection Hstep as <-.
    split; simpl; eauto.
    intros id sess Hl. specialize (Hpast id sess Hl). lia.
  - (* CallCreate *)
    unfold step in Hstep. rewrite Hok in Hstep.
    apply step_call in Hstep as (r & Hexec & Hc' & Hs').
    destruct s' as [w' c' st']; cbn [world cleaner stoppers] in *; subst c' st'.
    rewrite exec_CreateSession in Hexec by done.
    destruct (readFull 26 _) as [buf [err|]];
      injection Hexec as _ <-.
    + split; simpl; eauto.
    + split; simpl; eauto.
      intros id sess. destruct (decide (base64.EncodeToString buf = id)) as [->|Hne].
      * rewrite lookup_insert_eq. intros [= <-]. simpl. lia.
      * rewrite lookup_insert_ne by done. apply Hpast.
  - (* CallGet *)
    unfold step in Hstep. rewrite Hok in Hstep.
    apply step_call in Hstep as (r & Hexec & Hc' & Hs').
    destruct s' as [w' c' st']; cbn [world cleaner stoppers] in *; subst c' st'.
    rewrite exec_GetSessionData in Hexec by done.
    assert (w' = world s) as ->
      by (destruct (sessions (world s) !! id); by injection Hexec).
    split; eauto.
  - (* CallUpdate *)
    unfold step in Hstep. rewrite Hok in Hstep.
    apply step_call in Hstep as (r & Hexec & Hc' & Hs').
    destruct s' as [w' c' st']; cbn [world cleaner stoppers] in *; subst c' st'.
    rewrite exec_UpdateSessionData in Hexec by done.
    destruct (sessions (world s) !! id) as [old|];
      injection Hexec as _ <-.
    + split; simpl; eauto.
      intros id' sess. destruct (decide (id = id')) as [->|Hne].
      * rewrite lookup_insert_eq. intros [= <-]. simpl. lia.
      * rewrite lookup_insert_ne by done. apply Hpast.
    + split; eauto.
  - (* CallStop *)
    unfold step in Hstep. rewrite Hok in Hstep. injection Hstep as <-.
    split; simpl; eauto.
    + intros i g [[_ Hl]|[_ <-]]%lookup_snoc_Some; [eauto|]. by exists Entering.
    + intros i [[_ Hl]|[_ Hl]]%lookup_snoc_Some; [eauto|]. inversion Hl.
    + intros i [[[_ Hl]|[_ Hl]]%lookup_snoc_Some|[[_ Hl]|[_ Hl]]%lookup_snoc_Some];
        eauto; inversion Hl.
  - (* StepStop *)
    destruct (stoppers s !! i) as [g|] eqn:Hg;
      [|by unfold step in Hstep; rewrite Hok, Hg in Hstep].
    destruct (Hst i g Hg) as [ph ->].
    rewrite (step_stopper s i ph Hok Hg) in Hstep.
    destruct (stopper_next (S i) ph (world s)) as [[ph' w']|] eqn:Hnext; [|done].
    injection Hstep as <-. cbn [fst snd].
    assert (i < length (stoppers s))%nat as Hi by (by eapply lookup_lt_Some).
    assert (locked w' = false /\ sessions w' = sessions (world s)
            /\ clock w' = clock (world s)
            /\ (forall j, j ∈ done_sendq (world s) -> j ∈ done_sendq w')
            /\ (ph' = InSend -> S i ∈ done_sendq w')
            /\ (ph' = AtClose -> (S i ∉ done_sendq (world s)) /\ ph = InSend)
            /\ (ph' = Left -> ph = AtClose)) as (Hf' & Hs' & Hc' & Hq & Hin & Hcl & Hlf).
    { destruct ph; simpl in Hnext;
        repeat match type of Hnext with
               | context [if ?b then _ else _] => destruct b eqn:?
               end;
        simplify_eq; simpl; repeat split; try done;
        try (intros j Hj; apply elem_of_app; by left).
      - intros _. apply elem_of_app. right. by apply list_elem_of_singleton.
      - by apply bool_decide_eq_false in Heqb. }
    split; cbn [world cleaner stoppers].
    + done.
    + rewrite Hs', Hc'. done.
    + eauto.
    + intros j g. destruct (decide (i = j)) as [->|Hne].
      * rewrite list_lookup_insert_eq by done. intros [= <-]. eauto.
      * rewrite list_lookup_insert_ne by done. eauto.
    + intros j. destruct (decide (i = j)) as [->|Hne].
      * rewrite list_lookup_insert_eq by done.
        intros ->%stopper_some_inj. left. by apply Hin.
      * rewrite list_lookup_insert_ne by done.
        intros [Hj|Hj]%Hsent; [left; by apply Hq|by right].
    + intros j. destruct (decide (i = j)) as [->|Hne].
      * rewrite list_lookup_insert_eq by done.
        intros [Heq|Heq]; apply stopper_some_inj in Heq as ->.
        -- destruct (Hcl eq_refl) as [Hnin ->].
           destruct (Hsent j Hg) as [?|?]; done.
        -- rewrite (Hlf eq_refl) in Hg. apply (Hrecv j). by left.
      * rewrite !list_lookup_insert_ne by done. apply Hrecv.
  - (* StepCleaner *)
    rewrite (step_cleaner s cph Hok Hfree Hc) in Hstep.
    destruct (cleaner_next cph (world s)) as [[ph' w']|] eqn:Hnext; [|done].
    injection Hstep as <-. cbn [fst snd].
    assert (locked w' = false
            /\ (forall id sess, sessions w' !! id = Some sess ->
                                sessions (world s) !! id = Some sess)
            /\ clock w' = clock (world s)
            /\ (stopped ph' = true
                \/ done_sendq w' = done_sendq (world s))) as (Hf' & Hs' & Hc' & Hq).
    { destruct cph; simpl in Hnext;
        repeat match type of Hnext with
               | context [if ?b then _ else _] => destruct b eqn:?
               | context [match ?l with [] => _ | _ :: _ => _ end] =>
                   destruct l eqn:?
               end;
        simplify_eq; simpl; repeat split; auto.
      - by rewrite locked_cleaned.
      - intros id sess. rewrite sessions_cleaned.
        destruct (sessions (world s) !! id) as [old|]; [|done].
        by destruct (expired _ _).
      - unfold cleaned. destruct (size _ =? 0)%nat; [done|].
        by destruct (0 <? length _)%nat.
      - right. unfold cleaned. destruct (size _ =? 0)%nat; [done|].
        by destruct (0 <? length _)%nat. }
    split; cbn [world cleaner stoppers].
    + done.
    + intros id sess Hl. rewrite Hc'. eauto.
    + eauto.
    + eauto.
    + intros i Hi. destruct Hq as [Hq|Hq]; [right; eauto|].
      rewrite Hq. destruct (Hsent i Hi) as [?|(ph0 & Hr & Hstop)]; [by left|].
      rewrite Hc in Hr. apply cleaner_in_inj in Hr as <-.
      right. exists ph'. split; [done|]. by eapply stopped_next.
    + intros i Hi. destruct (Hrecv i Hi) as (ph0 & Hr & Hstop).
      rewrite Hc in Hr. apply cleaner_in_inj in Hr as <-.
      exists ph'. split; [done|]. by eapply stopped_next.
Qed.

Lemma Inv_run (es : list Event) (s s' : System) :
  Inv s -> run es s = Some s' -> Inv s'.
Proof.
  revert s. induction es as [|e es IH]; intros s Hinv; simpl.
  - by intros [= <-].
  - destruct (step e s) as [s1|] eqn:Hstep; [|done]. simpl.
    apply IH. by eapply Inv_step.
Qed.

Lemma reachable_Inv (s : System) : reachable s -> Inv s.
Proof.
  intros (reader & start & es & Hrun).
  eapply Inv_run; [apply Inv_NewSessionManager|done].
Qed.

(** ** UpdateSessionData in a running store *)

(** C3: in a store reached from NewSessionManager, UpdateSessionData on
    an ID that is present returns a nil error and stores under that ID
    the session made of the new data and the current time, in one map
    store that carries both; the former LastUpdate is not later than the
    new one, and nothing else in the world changes.  On an ID that is
    absent it returns ErrSessionNotFound and changes nothing. *)
Theorem UpdateSessionData_spec (s : System) (id : string) (newData : MapRef) :
  reachable s ->
  let w := world s in
  let session := {| Data := newData; LastUpdate := clock w |} in
  match sessions w !! id with
  | Some old =>
      exec (UpdateSessionData id newData) w
      = Done None (set_sessions (insert id session) w)
      /\ LastUpdate old <= LastUpdate session
      /\ trace (UpdateSessionData id newData) w
         = [did Lock; did (MapLoad id); did Now; did (MapStore id session);
            did Unlock]
  | None =>
      exec (UpdateSessionData id newData) w = Done (Some ErrSessionNotFound) w
      /\ trace (UpdateSessionData id newData) w
         = [did Lock; did (MapLoad id); did Unlock]
  end.
Proof.
  intros Hreach w session. destruct (reachable_Inv s Hreach) as [Hfree Hpast _ _ _ _].
  fold w in Hfree, Hpast.
  rewrite exec_UpdateSessionData by done.
  destruct (sessions w !! id) as [old|] eqn:Hl.
  - split; [done|]. split; [by apply (Hpast id)|].
    unfold UpdateSessionData. cbn. rewrite Hfree. cbn. by rewrite Hl.
  - split; [done|].
    unfold UpdateSessionData. cbn. rewrite Hfree. cbn. by rewrite Hl.
Qed.

Lemma reachable_after (es : list Event) (reader : nat -> Entropy) (start : Z) :
  is_Some (run es (NewSessionManager reader start)) ->
  reachable (after es (NewSessionManager reader start)).
Proof.
  intros [s Hrun]. exists reader, start, es. unfold after. by rewrite Hrun.
Qed.

Lemma run_after (es : list Event) (s : System) :
  possible es s = true -> run es s = Some (after es s).
Proof. unfold possible, after. by destruct (run es s). Qed.

Lemma reachable_possible (es : list Event) (reader : nat -> Entropy) (start : Z) :
  possible es (NewSessionManager reader start) = true ->
  reachable (after es (NewSessionManager reader start)).
Proof. intros H. exists reader, start, es. by apply run_after. Qed.

Lemma UpdateSessionData_spec_witness :
  reachable busy_store
  /\ exec (UpdateSessionData demo_id (MapAt 4)) (world busy_store)
     = Done None
         (set_sessions
            (insert demo_id {| Data := MapAt 4; LastUpdate := 1 * Second |})
            (world busy_store)).
Proof.
  assert (reachable busy_store) as Hreach.
  { apply (reachable_possible _ demo_reader 0). vm_compute. reflexivity. }
  split; [exact Hreach|].
  pose proof (UpdateSessionData_spec busy_store demo_id (MapAt 4) Hreach) as H.
  cbv zeta in H.
  assert (sessions (world busy_store) !! demo_id
          = Some {| Data := MapAt 9; LastUpdate := 1 * Second |}) as Hl
    by (vm_compute; reflexivity).
  assert (clock (world busy_store) = 1 * Second) as Hc
    by (vm_compute; reflexivity).
  rewrite Hl, Hc in H. exact (proj1 H).
Defined.

(** ** What each event does, by cases *)

Lemma step_cases (e : Event) (s s' : System) :
  Inv s -> step e s = Some s' ->
  crashed s = false
  /\ match e with
     | Tick d =>
         0 <= d /\ s' = with_world (set_clock (clock (world s) + d) (world s)) s
     | CallCreate =>
         cleaner s' = cleaner s /\ stoppers s' = stoppers s
         /\ exists r, exec CreateSession (world s) = Done r (world s')
     | CallGet id =>
         cleaner s' = cleaner s /\ stoppers s' = stoppers s
         /\ world s' = world s
     | CallUpdate id data =>
         cleaner s' = cleaner s /\ stoppers s' = stoppers s
         /\ exists r, exec (UpdateSessionData id data) (world s) = Done r (world s')
     | CallStop =>
         s' = mkSystem (world s) (cleaner s) (stoppers s ++ [stopper_in Entering])
     | StepStop i =>
         exists ph ph',
           stoppers s !! i = Some (stopper_in ph)
           /\ stopper_next (S i) ph (world s) = Some (ph', world s')
           /\ cleaner s' = cleaner s
           /\ stoppers s' = <[i := stopper_in ph']> (stoppers s)
     | StepCleaner =>
         exists ph ph',
           cleaner s = cleaner_in ph
           /\ cleaner_next ph (world s) = Some (ph', world s')
           /\ cleaner s' = cleaner_in ph'
           /\ stoppers s' = stoppers s
     end.
Proof.
  intros [Hfree Hpast [cph Hc] Hst Hsent Hrecv] Hstep.
  pose proof (step_not_crashed _ _ _ Hstep) as Hok. split; [done|].
  destruct e as [d| |id|id data| |i|].
  - unfold step in Hstep. rewrite Hok in Hstep.
    destruct (Z.leb_spec 0 d); [|done]. by injection Hstep as <-.
  - unfold step in Hstep. rewrite Hok in Hstep.
    apply step_call in Hstep as (r & Hexec & Hc' & Hs'). eauto.
  - unfold step in Hstep. rewrite Hok in Hstep.
    apply step_call in Hstep as (r & Hexec & Hc' & Hs').
    rewrite exec_GetSessionData in Hexec by done.
    repeat split; [done..|].
    destruct (sessions (world s) !! id); by injection Hexec.
  - unfold step in Hstep. rewrite Hok in Hstep.
    apply step_call in Hstep as (r & Hexec & Hc' & Hs'). eauto.
  - unfold step in Hstep. rewrite Hok in Hstep. by injection Hstep as <-.
  - destruct (stoppers s !! i) as [g|] eqn:Hg;
      [|by unfold step in Hstep; rewrite Hok, Hg in Hstep].
    destruct (Hst i g Hg) as [ph ->].
    rewrite (step_stopper s i ph Hok Hg) in Hstep.
    destruct (stopper_next (S i) ph (world s)) as [[ph' w']|] eqn:Hnext; [|done].
    injection Hstep as <-. by exists ph, ph'.
  - rewrite (step_cleaner s cph Hok Hfree Hc) in Hstep.
    destruct (cleaner_next cph (world s)) as [[ph' w']|] eqn:Hnext; [|done].
    injection Hstep as <-. by exists cph, ph'.
Qed.

(** How the parts of the world move in a step of the cleaner and of a
    stop call. *)
Lemma cleaner_next_world (ph ph' : CleanerPhase) (w w' : World) :
  cleaner_next ph w = Some (ph', w') ->
  clock w' = clock w /\ heap w' = heap w /\ rand_reads w' = rand_reads w
  /\ rand_Reader w' = rand_Reader w /\ locked w' = locked w
  /\ (done_closed w = true -> done_closed w' = true)
  /\ (ph = AtClean /\ ph' = AtSelect /\ w' = cleaned w
      \/ ph <> AtClean /\ sessions w' = sessions w).
Proof.
  destruct ph; simpl; intros Hnext;
    repeat match type of Hnext with
           | context [if ?b then _ else _] => destruct b eqn:?
           | context [match ?l with [] => _ | _ :: _ => _ end] => destruct l eqn:?
           end;
    simplify_eq; simpl; repeat split; auto; try congruence.
  all: try (unfold cleaned; destruct (size _ =? 0)%nat; [done|];
            by destruct (0 <? length _)%nat).
Qed.

Lemma stopper_next_world (me : nat) (ph ph' : StopperPhase) (w w' : World) :
  stopper_next me ph w = Some (ph', w') ->
  clock w' = clock w /\ heap w' = heap w /\ rand_reads w' = rand_reads w
  /\ rand_Reader w' = rand_Reader w /\ locked w' = locked w
  /\ sessions w' = sessions w /\ log_out w' = log_out w
  /\ (done_closed w = true -> done_closed w' = true).
Proof.
  destruct ph; simpl; intros Hnext;
    repeat match type of Hnext with
           | context [if ?b then _ else _] => destruct b eqn:?
           end;
    simplify_eq; simpl; repeat split; auto; congruence.
Qed.

Lemma CreateSession_world (w w' : World) (r : string * option error) :
  locked w = false -> exec CreateSession w = Done r w' ->
  clock w' = clock w /\ locked w' = false /\ log_out w' = log_out w
  /\ done_closed w' = done_closed w /\ done_sendq w' = done_sendq w
  /\ rand_Reader w' = rand_Reader w
  /\ (sessions w' = sessions w
      \/ sessions w'
         = <[r.1 := {| Data := MapAt (fresh (dom (heap w)));
                       LastUpdate := clock w |}]> (sessions w)).
Proof.
  intros Hfree. rewrite exec_CreateSession by done.
  destruct (readFull 26 _) as [buf [e|]]; intros [= <- <-]; simpl;
    repeat split; auto.
Qed.

Lemma UpdateSessionData_world (id : string) (data : MapRef) (w w' : World)
    (r : option error) :
  locked w = false -> exec (UpdateSessionData id data) w = Done r w' ->
  clock w' = clock w /\ locked w' = false /\ log_out w' = log_out w
  /\ done_closed w' = done_closed w /\ done_sendq w' = done_sendq w
  /\ rand_Reader w' = rand_Reader w /\ rand_reads w' = rand_reads w
  /\ heap w' = heap w
  /\ (sessions w' = sessions w
      \/ sessions w'
         = <[id := {| Data := data; LastUpdate := clock w |}]> (sessions w)).
Proof.
  intros Hfree. rewrite exec_UpdateSessionData by done.
  destruct (sessions w !! id); intros [= <- <-]; simpl; repeat split; auto.
Qed.

(** Induction over the systems a run from NewSessionManager leads to. *)
Lemma reachable_induction (P : System -> Prop) :
  (forall reader start, P (NewSessionManager reader start)) ->
  (forall e s s', Inv s -> P s -> step e s = Some s' -> P s') ->
  forall s, reachable s -> P s.
Proof.
  intros Hinit Hstep s (reader & start & es & Hrun).
  assert (forall es s0, Inv s0 -> P s0 -> run es s0 = Some s -> P s) as Hgen.
  { clear es Hrun. intros es. induction es as [|e es IH]; intros s0 Hinv HP; simpl.
    - by intros [= <-].
    - destruct (step e s0) as [s1|] eqn:He; [|done]. simpl.
      apply IH; [by eapply Inv_step|by eapply Hstep]. }
  eapply Hgen; [apply Inv_NewSessionManager|apply Hinit|done].
Qed.

Lemma reachable_step (e : Event) (s s' : System) :
  reachable s -> step e s = Some s' -> reachable s'.
Proof.
  intros (reader & start & es & Hrun) Hstep.
  exists reader, start, (es ++ [e]).
  revert Hrun. generalize (NewSessionManager reader start).
  induction es as [|e0 es IH]; intros s0; simpl.
  - intros [= ->]. by rewrite Hstep.
  - destruct (step e0 s0); [|done]. simpl. apply IH.
Qed.

Lemma reachable_run (es : list Event) (s s' : System) :
  reachable s -> run es s = Some s' -> reachable s'.
Proof.
  revert s. induction es as [|e es IH]; intros s Hr; simpl.
  - by intros [= <-].
  - destruct (step e s) as [s1|] eqn:He; [|done]. simpl.
    apply IH. by eapply reachable_step.
Qed.

(** Once [m.done] is closed it stays closed. *)
Lemma done_closed_step (e : Event) (s s' : System) :
  Inv s -> step e s = Some s' ->
  done_closed (world s) = true -> done_closed (world s') = true.
Proof.
  intros Hinv Hstep Hcl. pose proof (inv_free s Hinv) as Hfree.
  destruct (step_cases e s s' Hinv Hstep) as [_ Hcase].
  destruct e; simpl in Hcase.
  - destruct Hcase as [_ ->]. done.
  - destruct Hcase as (_ & _ & r & Hexec).
    apply CreateSession_world in Hexec; [|done]. by rewrite (proj1 (proj2 (proj2 (proj2 Hexec)))).
  - destruct Hcase as (_ & _ & ->). done.
  - destruct Hcase as (_ & _ & r & Hexec).
    apply UpdateSessionData_world in Hexec; [|done]. by rewrite (proj1 (proj2 (proj2 (proj2 Hexec)))).
  - by subst s'.
  - destruct Hcase as (ph & ph' & _ & Hnext & _).
    apply stopper_next_world in Hnext. by apply Hnext.
  - destruct Hcase as (ph & ph' & _ & Hnext & _).
    apply cleaner_next_world in Hnext. by apply Hnext.
Qed.

(** A stop call that has returned has closed [m.done]. *)
Lemma closed_after_return (s : System) (i : nat) :
  reachable s -> stoppers s !! i = Some (stopper_in Left) ->
  done_closed (world s) = true.
Proof.
  intros Hreach. revert i. pattern s. revert s Hreach.
  apply reachable_induction; [done|].
  intros e s s' Hinv IH Hstep i Hi.
  destruct (step_cases e s s' Hinv Hstep) as [_ Hcase].
  assert (forall j, stoppers s !! j = Some (stopper_in Left) ->
                    done_closed (world s') = true) as Hkeep.
  { intros j Hj. eapply done_closed_step; eauto. }
  destruct e; simpl in Hcase.
  - destruct Hcase as [_ ->]. eauto.
  - destruct Hcase as (_ & Hs & _). rewrite Hs in Hi. eauto.
  - destruct Hcase as (_ & Hs & _). rewrite Hs in Hi. eauto.
  - destruct Hcase as (_ & Hs & _). rewrite Hs in Hi. eauto.
  - subst s'. simpl in *.
    apply lookup_snoc_Some in Hi as [[_ Hi]|[_ Hi]]; [eauto|inversion Hi].
  - destruct Hcase as (ph & ph' & Hph & Hnext & _ & Hs). rewrite Hs in Hi.
    destruct (decide (i0 = i)) as [->|Hne].
    + rewrite list_lookup_insert_eq in Hi by (by eapply lookup_lt_Some).
      apply stopper_some_inj in Hi as ->.
      destruct ph; simpl in Hnext;
        repeat match type of Hnext with
               | context [if ?b then _ else _] => destruct b eqn:?
               end; simplify_eq; try done.
      match goal with H : _ = world s' |- _ => by rewrite <- H end.
    + rewrite list_lookup_insert_ne in Hi by done. eauto.
  - destruct Hcase as (ph & ph' & _ & _ & _ & Hs). rewrite Hs in Hi. eauto.
Qed.

(** ** StopSession called again *)

Lemma existsb_false {A : Type} (f : A -> bool) (l : list A) :
  existsb f l = false <-> forall x, x ∈ l -> f x = false.
Proof.
  induction l as [|y l IH]; simpl.
  - split; [|done]. intros _ x Hx. by apply elem_of_nil in Hx.
  - rewrite orb_false_iff, IH. split.
    + intros [Hy Hl] x [->|Hx]%elem_of_cons; auto.
    + intros H. split; [apply H, elem_of_cons; auto|].
      intros x Hx. apply H, elem_of_cons; auto.
Qed.

Lemma crashed_snoc (w w' : World) (c : Goroutine bool) (l : list (Goroutine unit))
    (g : Goroutine unit) :
  crashed (mkSystem w c l) = false -> is_panicked g = false ->
  crashed (mkSystem w' c (l ++ [g])) = false.
Proof.
  unfold crashed. simpl. rewrite !orb_false_iff, !existsb_false.
  intros [Hc Hl] Hg. split; [done|].
  intros x [Hx|Hx%list_elem_of_singleton]%elem_of_app; [auto|by subst].
Qed.

Lemma crashed_insert (w w' : World) (c : Goroutine bool) (l : list (Goroutine unit))
    (i : nat) (g : Goroutine unit) :
  crashed (mkSystem w c l) = false -> is_panicked g = false ->
  crashed (mkSystem w' c (<[i := g]> l)) = false.
Proof.
  unfold crashed. simpl. rewrite !orb_false_iff, !existsb_false.
  intros [Hc Hl] Hg. split; [done|].
  intros x Hx. apply list_elem_of_lookup in Hx as [j Hj].
  destruct (decide (i = j)) as [->|Hne].
  - destruct (decide (j < length l)%nat).
    + rewrite list_lookup_insert_eq in Hj by done. by injection Hj as <-.
    + rewrite list_insert_ge in Hj by lia.
      apply Hl, list_elem_of_lookup. eauto.
  - rewrite list_lookup_insert_ne in Hj by done.
    apply Hl, list_elem_of_lookup. eauto.
Qed.

(** The claim C9 fails on the code: in this run the first call of
    StopSession returns and the second one panics. *)
Lemma StopSession_twice_counterexample :
  possible stop_twice demo_store = true
  /\ stoppers (after stop_twice demo_store)
     = [Exited tt; Panicked "send on closed channel"]
  /\ crashed (after stop_twice demo_store) = true.
Proof. repeat split; vm_compute; reflexivity. Qed.

(** A late stop call stays a late stop call, whatever runs. *)
Lemma late_call_step (e : Event) (s s' : System) (j : nat) (ph : StopperPhase) :
  Inv s -> done_closed (world s) = true ->
  stoppers s !! j = Some (stopper_in ph) -> late_phase ph ->
  step e s = Some s' ->
  exists ph', stoppers s' !! j = Some (stopper_in ph') /\ late_phase ph'.
Proof.
  intros Hinv Hcl Hj Hlate Hstep.
  destruct (step_cases e s s' Hinv Hstep) as [_ Hcase].
  destruct e; simpl in Hcase.
  - destruct Hcase as [_ ->]. eauto.
  - destruct Hcase as (_ & -> & _). eauto.
  - destruct Hcase as (_ & -> & _). eauto.
  - destruct Hcase as (_ & -> & _). eauto.
  - subst s'. simpl. exists ph. split; [|done].
    apply lookup_app_l_Some, Hj.
  - destruct Hcase as (ph0 & ph1 & Hph & Hnext & _ & ->).
    destruct (decide (i = j)) as [->|Hne].
    + rewrite list_lookup_insert_eq by (by eapply lookup_lt_Some).
      exists ph1. split; [done|].
      rewrite Hph in Hj. apply stopper_some_inj in Hj as ->.
      destruct Hlate as [-> | [[wake ->] | [-> | ->]]]; simpl in Hnext.
      * injection Hnext as <- _. right. left. eauto.
      * destruct (wake <=? _); [|done]. injection Hnext as <- _.
        right. right. by left.
      * rewrite Hcl in Hnext. injection Hnext as <- _.
        right. right. by right.
      * done.
    + rewrite list_lookup_insert_ne by done. eauto.
  - destruct Hcase as (_ & _ & _ & _ & _ & ->). eauto.
Qed.

(** C9, amended: a call of StopSession made after an earlier call has
    returned finds the channel closed.  It never parks in its send and
    never returns: at any later time it is still before its send or has
    panicked with "send on closed channel"; and when it is run through
    (it sleeps its 6 microseconds and sends) it does panic, which ends
    the process. *)
Theorem StopSession_second_call (s : System) (i : nat) :
  reachable s -> crashed s = false ->
  stoppers s !! i = Some (Exited tt) ->
  let j := length (stoppers s) in
  (exists s',
     run [CallStop; StepStop j; Tick (6 * Microsecond); StepStop j; StepStop j] s
     = Some s'
     /\ stoppers s' !! j = Some (Panicked "send on closed channel")
     /\ crashed s' = true)
  /\ (forall es s',
        run (CallStop :: es) s = Some s' ->
        exists ph, stoppers s' !! j = Some (stopper_in ph) /\ late_phase ph).
Proof.
  intros Hreach Hok Hi j.
  pose proof (closed_after_return s i Hreach Hi) as Hcl.
  pose proof (reachable_Inv s Hreach) as Hinv.
  set (s1 := mkSystem (world s) (cleaner s) (stoppers s ++ [stopper_in Entering])).
  assert (step CallStop s = Some s1) as H1 by (unfold step; by rewrite Hok).
  assert (stoppers s1 !! j = Some (stopper_in Entering)) as Hj1.
  { simpl. rewrite lookup_app_r by done. by rewrite Nat.sub_diag. }
  split.
  - destruct s as [w c st]. simpl in *.
    assert (crashed s1 = false) as Hok1 by (by apply (crashed_snoc w)).
    set (s2 := mkSystem w c (<[j := stopper_in (Napping (clock w + 6 * Microsecond))]>
                               (stoppers s1))).
    assert (step (StepStop j) s1 = Some s2) as H2
      by (by rewrite (step_stopper s1 j Entering Hok1 Hj1)).
    assert (j < length (stoppers s1))%nat as Hlen
      by (subst j; simpl; rewrite length_app; simpl; lia).
    assert (crashed s2 = false) as Hok2 by (by apply (crashed_insert w)).
    set (w3 := set_clock (clock w + 6 * Microsecond) w).
    set (s3 := mkSystem w3 c (stoppers s2)).
    assert (step (Tick (6 * Microsecond)) s2 = Some s3) as H3
      by (unfold step; by rewrite Hok2).
    assert (crashed s3 = false) as Hok3 by exact Hok2.
    assert (stoppers s3 !! j
            = Some (stopper_in (Napping (clock w + 6 * Microsecond)))) as Hj3
      by (simpl; by rewrite list_lookup_insert_eq).
    set (s4 := mkSystem w3 c (<[j := stopper_in AtSend]> (stoppers s3))).
    assert (step (StepStop j) s3 = Some s4) as H4.
    { rewrite (step_stopper s3 j _ Hok3 Hj3). simpl.
      by rewrite (proj2 (Z.leb_le _ _)) by lia. }
    assert (crashed s4 = false) as Hok4 by (by apply (crashed_insert w3)).
    assert (stoppers s4 !! j = Some (stopper_in AtSend)) as Hj4.
    { simpl. rewrite list_lookup_insert_eq; [done|].
      by rewrite length_insert. }
    set (s5 := mkSystem w3 c (<[j := stopper_in (Blown "send on closed channel")]>
                                (stoppers s4))).
    assert (step (StepStop j) s4 = Some s5) as H5.
    { rewrite (step_stopper s4 j _ Hok4 Hj4). simpl. by rewrite Hcl. }
    exists s5. split; [|split].
    + cbn [run]. rewrite H1. cbn [mbind option_bind]. rewrite H2.
      cbn [mbind option_bind]. rewrite H3. cbn [mbind option_bind].
      rewrite H4. cbn [mbind option_bind]. by rewrite H5.
    + simpl. rewrite list_lookup_insert_eq; [done|].
      by rewrite !length_insert.
    + unfold crashed. apply orb_true_iff. right.
      apply existsb_exists. exists (Panicked "send on closed channel").
      split; [|done]. apply list_elem_of_In, list_elem_of_lookup. exists j.
      simpl. rewrite list_lookup_insert_eq; [done|]. by rewrite !length_insert.
  - intros es s'. cbn [run]. rewrite H1. cbn [mbind option_bind].
    assert (Inv s1 /\ done_closed (world s1) = true) as [Hinv1 Hcl1].
    { split; [by eapply Inv_step|done]. }
    assert (late_phase Entering) as Hlate by (by left).
    revert Hinv1 Hcl1 Hj1 Hlate. generalize Entering. generalize s1.
    induction es as [|e es IH]; intros s0 ph Hinv0 Hcl0 Hj0 Hlate0; simpl.
    + intros [= <-]. eauto.
    + destruct (step e s0) as [s0'|] eqn:He; [|done]. simpl.
      destruct (late_call_step e s0 s0' j ph Hinv0 Hcl0 Hj0 Hlate0 He)
        as (ph' & Hj' & Hlate').
      apply (IH s0' ph'); auto.
      * by eapply Inv_step.
      * by eapply done_closed_step.
Qed.

Lemma StopSession_second_call_witness :
  let s := after stop_once demo_store in
  reachable s /\ crashed s = false /\ stoppers s !! 0%nat = Some (Exited tt)
  /\ exists s',
       run [CallStop; StepStop (length (stoppers s)); Tick (6 * Microsecond);
            StepStop (length (stoppers s)); StepStop (length (stoppers s))] s
       = Some s'
       /\ stoppers s' !! length (stoppers s) = Some (Panicked "send on closed channel")
       /\ crashed s' = true.
Proof.
  assert (reachable (after stop_once demo_store)) as Hreach
    by (apply (reachable_possible _ demo_reader 0); vm_compute; reflexivity).
  assert (crashed (after stop_once demo_store) = false) as Hok
    by (vm_compute; reflexivity).
  assert (stoppers (after stop_once demo_store) !! 0%nat = Some (Exited tt)) as Hi
    by (vm_compute; reflexivity).
  split; [exact Hreach|]. split; [exact Hok|]. split; [exact Hi|].
  exact (proj1 (StopSession_second_call _ 0%nat Hreach Hok Hi)).
Defined.

(** ** Teardown and the cleaner *)

Lemma cleaned_frame (w : World) :
  done_closed (cleaned w) = done_closed w
  /\ done_sendq (cleaned w) = done_sendq w
  /\ clock (cleaned w) = clock w
  /\ heap (cleaned w) = heap w
  /\ rand_reads (cleaned w) = rand_reads w.
Proof.
  unfold cleaned. destruct (size _ =? 0)%nat; [done|].
  by destruct (0 <? length _)%nat.
Qed.

(** The cleaner has left its loop whenever [m.done] is closed. *)
Lemma stopped_when_closed (s : System) :
  reachable s -> done_closed (world s) = true ->
  exists ph, cleaner s = cleaner_in ph /\ stopped ph = true.
Proof.
  intros Hreach. revert s Hreach.
  apply (reachable_induction
           (fun s => done_closed (world s) = true ->
                     exists ph, cleaner s = cleaner_in ph /\ stopped ph = true));
    [done|].
  intros e s s' Hinv IH Hstep Hcl.
  pose proof (inv_free s Hinv) as Hfree.
  destruct (step_cases e s s' Hinv Hstep) as [_ Hcase].
  destruct e; simpl in Hcase.
  - destruct Hcase as [_ ->]. auto.
  - destruct Hcase as (-> & _ & r & Hexec).
    apply CreateSession_world in Hexec as (_ & _ & _ & Hd & _); [|done].
    rewrite Hd in Hcl. auto.
  - destruct Hcase as (-> & _ & Hw). rewrite Hw in Hcl. auto.
  - destruct Hcase as (-> & _ & r & Hexec).
    apply UpdateSessionData_world in Hexec as (_ & _ & _ & Hd & _); [|done].
    rewrite Hd in Hcl. auto.
  - subst s'. auto.
  - destruct Hcase as (ph & ph' & Hph & Hnext & -> & _).
    destruct (done_closed (world s)) eqn:Hcl0; [auto|].
    destruct ph; simpl in Hnext; rewrite ?Hcl0 in Hnext;
      repeat match type of Hnext with
             | context [if ?b then _ else _] => destruct b eqn:?
             end; simplify_eq;
      try match goal with H : _ = world s' |- _ =>
            rewrite <- H in Hcl; simpl in Hcl; congruence end;
      try congruence.
    apply (inv_received s Hinv i). by left.
  - destruct Hcase as (ph & ph' & Hph & Hnext & -> & _).
    destruct (done_closed (world s)) eqn:Hcl0.
    + destruct (IH eq_refl) as (ph0 & Hph0 & Hstop). rewrite Hph in Hph0.
      apply cleaner_in_inj in Hph0 as <-.
      exists ph'. split; [done|]. by eapply stopped_next.
    + destruct ph; simpl in Hnext; rewrite ?Hcl0 in Hnext;
        repeat match type of Hnext with
               | context [if ?b then _ else _] => destruct b eqn:?
               | context [match ?l with [] => _ | _ :: _ => _ end] =>
                   destruct l eqn:?
               end; simplify_eq; try done;
        try match goal with H : _ = world s' |- _ =>
              rewrite <- H in Hcl; simpl in Hcl; try congruence end.
      rewrite (proj1 (cleaned_frame _)) in Hcl. congruence.
Qed.

(** Once the cleaner has left its loop it makes no pass: it stays out of
    the loop and no session leaves the map. *)
Lemma no_eviction_when_stopped (e : Event) (s s' : System) (ph : CleanerPhase) :
  Inv s -> cleaner s = cleaner_in ph -> stopped ph = true ->
  step e s = Some s' ->
  (exists ph', cleaner s' = cleaner_in ph' /\ stopped ph' = true)
  /\ forall id, is_Some (sessions (world s) !! id) ->
                is_Some (sessions (world s') !! id).
Proof.
  intros Hinv Hret Hstop Hstep. pose proof (inv_free s Hinv) as Hfree.
  destruct (step_cases e s s' Hinv Hstep) as [_ Hcase].
  destruct e; simpl in Hcase.
  - destruct Hcase as [_ ->]. eauto.
  - destruct Hcase as (-> & _ & r & Hexec). split; [eauto|].
    apply CreateSession_world in Hexec as (_ & _ & _ & _ & _ & _ & [->| ->]);
      [done| |done].
    intros id Hid. destruct (decide (r.1 = id)) as [->|Hne].
    + rewrite lookup_insert_eq. eauto.
    + by rewrite lookup_insert_ne.
  - destruct Hcase as (-> & _ & ->). eauto.
  - destruct Hcase as (-> & _ & r & Hexec). split; [eauto|].
    apply UpdateSessionData_world
      in Hexec as (_ & _ & _ & _ & _ & _ & _ & _ & [->| ->]); [done| |done].
    intros id' Hid. destruct (decide (id = id')) as [->|Hne].
    + rewrite lookup_insert_eq. eauto.
    + by rewrite lookup_insert_ne.
  - subst s'. eauto.
  - destruct Hcase as (ph0 & ph' & _ & Hnext & -> & _). split; [eauto|].
    apply stopper_next_world in Hnext as (_ & _ & _ & _ & _ & -> & _). auto.
  - destruct Hcase as (ph0 & ph' & Hph & Hnext & Hc' & _).
    rewrite Hret in Hph. apply cleaner_in_inj in Hph as <-.
    split; [exists ph'; split; [done|by eapply stopped_next]|].
    apply cleaner_next_world in Hnext as (_ & _ & _ & _ & _ & _ & Hs).
    destruct Hs as [(-> & _)|[_ ->]]; [done|auto].
Qed.

Lemma no_eviction_when_stopped_run (es : list Event) (s s' : System)
    (ph : CleanerPhase) :
  Inv s -> cleaner s = cleaner_in ph -> stopped ph = true ->
  run es s = Some s' ->
  (exists ph', cleaner s' = cleaner_in ph' /\ stopped ph' = true)
  /\ forall id, is_Some (sessions (world s) !! id) ->
                is_Some (sessions (world s') !! id).
Proof.
  revert s ph. induction es as [|e es IH]; intros s ph Hinv Hret Hstop; simpl.
  - intros [= <-]. eauto.
  - destruct (step e s) as [s1|] eqn:He; [|done]. simpl. intros Hrun.
    destruct (no_eviction_when_stopped e s s1 ph Hinv Hret Hstop He)
      as [(ph1 & Hret1 & Hstop1) Hkeep1].
    destruct (IH s1 ph1 (Inv_step _ _ _ Hinv He) Hret1 Hstop1 Hrun)
      as [Hret' Hkeep'].
    auto.
Qed.

(** A sleep of the cleaner ends at most one scan interval from now. *)
Lemma wake_bound (s : System) (wake : Z) :
  reachable s -> cleaner s = cleaner_in (Sleeping wake) ->
  wake <= clock (world s) + scanInterval.
Proof.
  intros Hreach. revert wake. pattern s. revert s Hreach.
  apply reachable_induction; [done|].
  intros e s s' Hinv IH Hstep wake Hc.
  destruct (step_cases e s s' Hinv Hstep) as [_ Hcase].
  destruct e; simpl in Hcase.
  - destruct Hcase as [Hd ->]. simpl in *. specialize (IH wake Hc). lia.
  - destruct Hcase as (Hc' & _ & r & Hexec). rewrite Hc' in Hc.
    apply CreateSession_world in Hexec as (-> & _); [|apply Hinv]. auto.
  - destruct Hcase as (Hc' & _ & ->). rewrite Hc' in Hc. auto.
  - destruct Hcase as (Hc' & _ & r & Hexec). rewrite Hc' in Hc.
    apply UpdateSessionData_world in Hexec as (-> & _); [|apply Hinv]. auto.
  - subst s'. auto.
  - destruct Hcase as (ph & ph' & _ & Hnext & Hc' & _). rewrite Hc' in Hc.
    apply stopper_next_world in Hnext as (-> & _). auto.
  - destruct Hcase as (ph & ph' & Hph & Hnext & Hc' & _). rewrite Hc' in Hc.
    apply cleaner_in_inj in Hc as ->.
    destruct ph; simpl in Hnext;
      repeat match type of Hnext with
             | context [if ?b then _ else _] => destruct b eqn:?
             | context [match ?l with [] => _ | _ :: _ => _ end] =>
                 destruct l eqn:?
             end; simplify_eq.
    match goal with H : world s = world s' |- _ => rewrite <- H end.
    unfold scanInterval. lia.
Qed.

(** The claim C2 fails on the code: in this run a session is created and
    StopSession is called at once.  The call parks in its send while the
    cleaner sleeps on (the cleaner cannot take a step before its sleep is
    over); when the sleep is over the cleaner cleans, which removes the
    session, and only then receives the signal.  StopSession returns as
    soon as the signal is received: the cleaner has not yet written its
    log record and returned. *)
Lemma teardown_counterexample :
  possible teardown_run demo_store = true
  /\ done_sendq (world (after teardown_parked demo_store)) = [1%nat]
  /\ clock (world (after teardown_parked demo_store)) = 6 * Microsecond
  /\ step StepCleaner (after teardown_parked demo_store) = None
  /\ sessions (world (after teardown_parked demo_store)) !! demo_id
     = Some {| Data := MapAt 1; LastUpdate := 0 |}
  /\ sessions (world (after teardown_run demo_store)) !! demo_id = None
  /\ log_out (world (after teardown_run demo_store)) = [LogDeleted [demo_id]]
  /\ stoppers (after teardown_run demo_store) = [Exited tt]
  /\ cleaner (after teardown_run demo_store) = cleaner_in AtLog.
Proof. repeat split; vm_compute; reflexivity. Qed.

(** C2, amended: the sleep of the cleaner is not interrupted by a stop
    call: it ends at most one scan interval from now, but before the
    wake time the cleaner takes no step, and a call parked in its send
    takes no step until the cleaner has received from [m.done].  After
    its sleep the cleaner still cleans; it leaves its loop at a select
    at which a call is parked, without touching the sessions.  A call of
    StopSession returns only after the cleaner has received the signal
    and left its loop (the cleaner may not yet have written its log
    record and returned), and from then on the cleaner stays out of its
    loop and no session leaves the map, however the run goes on. *)
Theorem teardown_spec (s : System) :
  reachable s ->
  (forall wake,
      cleaner s = cleaner_in (Sleeping wake) ->
      wake <= clock (world s) + scanInterval
      /\ (clock (world s) < wake -> step StepCleaner s = None))
  /\ (forall i ph,
        stoppers s !! i = Some (stopper_in InSend) ->
        cleaner s = cleaner_in ph -> stopped ph = false ->
        step (StepStop i) s = None)
  /\ (cleaner s = cleaner_in AtClean -> crashed s = false ->
      step StepCleaner s
      = Some (mkSystem (cleaned (world s)) (cleaner_in AtSelect) (stoppers s)))
  /\ (cleaner s = cleaner_in AtSelect -> crashed s = false ->
      done_sendq (world s) <> [] ->
      exists s',
        step StepCleaner s = Some s'
        /\ cleaner s' = cleaner_in AtLog
        /\ sessions (world s') = sessions (world s)
        /\ log_out (world s') = log_out (world s))
  /\ (forall i,
        stoppers s !! i = Some (stopper_in Left) ->
        (exists ph, cleaner s = cleaner_in ph /\ stopped ph = true)
        /\ forall es s',
             run es s = Some s' ->
             (exists ph', cleaner s' = cleaner_in ph' /\ stopped ph' = true)
             /\ forall id, is_Some (sessions (world s) !! id) ->
                           is_Some (sessions (world s') !! id)).
Proof.
  intros Hreach. pose proof (reachable_Inv s Hreach) as Hinv.
  pose proof (inv_free s Hinv) as Hfree.
  split; [|split; [|split; [|split]]].
  - intros wake Hc. split; [by apply wake_bound|].
    intros Hlt. destruct (crashed s) eqn:Hok;
      [by unfold step; rewrite Hok|].
    rewrite (step_cleaner s _ Hok Hfree Hc). simpl.
    by rewrite (proj2 (Z.leb_gt _ _)) by lia.
  - intros i ph Hi Hph Hrun. destruct (crashed s) eqn:Hok;
      [by unfold step; rewrite Hok|].
    rewrite (step_stopper s i _ Hok Hi). simpl.
    assert (forall ph0, cleaner s = cleaner_in ph0 -> stopped ph0 = true -> False)
      as Hnot.
    { intros ph0 Hph0 Hstop0. rewrite Hph in Hph0.
      apply cleaner_in_inj in Hph0 as <-. congruence. }
    destruct (inv_sent s Hinv i Hi) as [Hin|(ph0 & Hph0 & Hstop0)];
      [|by destruct (Hnot ph0)].
    rewrite bool_decide_true by done.
    destruct (done_closed (world s)) eqn:Hcl; [|done].
    apply stopped_when_closed in Hcl as (ph0 & Hph0 & Hstop0); [|done].
    by destruct (Hnot ph0).
  - intros Hc Hok. rewrite (step_cleaner s _ Hok Hfree Hc). simpl.
    by rewrite Hfree.
  - intros Hc Hok Hq. rewrite (step_cleaner s _ Hok Hfree Hc). simpl.
    destruct (done_closed (world s)) eqn:Hcl.
    + apply stopped_when_closed in Hcl as (ph0 & Hph0 & Hstop0); [|done].
      rewrite Hc in Hph0. by apply cleaner_in_inj in Hph0 as <-.
    + destruct (done_sendq (world s)) as [|j q]; [done|]. simpl. eauto.
  - intros i Hi.
    assert (exists ph, cleaner s = cleaner_in ph /\ stopped ph = true)
      as (ph & Hret & Hstop)
      by (apply (inv_received s Hinv i); by right).
    split; [eauto|]. intros es s' Hrun.
    by apply (no_eviction_when_stopped_run es s s' ph).
Qed.

Lemma teardown_spec_witness :
  let s := after teardown_run demo_store in
  reachable s
  /\ stoppers s !! 0%nat = Some (stopper_in Left)
  /\ exists ph, cleaner s = cleaner_in ph /\ stopped ph = true.
Proof.
  assert (reachable (after teardown_run demo_store)) as Hreach
    by (apply (reachable_possible _ demo_reader 0); vm_compute; reflexivity).
  assert (stoppers (after teardown_run demo_store) !! 0%nat
          = Some (stopper_in Left)) as Hi by (vm_compute; reflexivity).
  split; [exact Hreach|]. split; [exact Hi|].
  destruct (teardown_spec _ Hreach) as (_ & _ & _ & _ & Hleft).
  exact (proj1 (Hleft 0%nat Hi)).
Defined.

(** ** The mutex discipline of the operations *)

Lemma guarded_to_bind {A B : Type} (strict held mid final : bool)
    (p : Prog A) (f : A -> Prog B) :
  guarded_to strict held mid p ->
  (forall x, guarded_to strict mid final (f x)) ->
  guarded_to strict held final (bind p f).
Proof.
  revert held. induction p as [a|X a k IH]; intros held Hp Hf; simpl in *.
  - by subst.
  - destruct (after_action strict a held); [|done]. eauto.
Qed.









Lemma guarded_void {R : Type} (held : bool) (p : Prog R) :
  guarded false held p -> guarded false held (void p).
Proof. intros Hp. by apply guarded_to_bind with (mid := false). Qed.

(** ** Interleaved goroutines and the mutex *)







Lemma fine_handle_sessions {X : Type} (a : Action X) (w w' : World) (x : X) :
  fine_handle a w = Done x w' -> is_map_write (did a) = false ->
  sessions w' = sessions w.
Proof.
  destruct a; simpl; intros Hh Hw; try done;
    repeat match type of Hh with
           | context [if ?b then _ else _] => destruct b eqn:?
           | context [match ?l with [] => _ | _ :: _ => _ end] => destruct l eqn:?
           end; by simplify_eq.
Qed.




(** ** Locked sections are atomic *)

Lemma alike_refl (w : World) : alike w w.
Proof. done. Qed.



Lemma alike_locked (w v : World) : alike w v -> locked w = locked v.
Proof. unfold alike, set_log. by intros [= _ -> _]. Qed.

Lemma alike_sessions (w v : World) : alike w v -> sessions w = sessions v.
Proof. unfold alike, set_log. by intros [= -> _]. Qed.













(** ** The operations of the store are single sections *)














(** ** How long a session stays *)

Lemma clock_step (e : Event) (s s' : System) :
  Inv s -> step e s = Some s' -> clock (world s) <= clock (world s').
Proof.
  intros Hinv Hstep. pose proof (inv_free s Hinv) as Hfree.
  destruct (step_cases e s s' Hinv Hstep) as [_ Hcase].
  destruct e; simpl in Hcase.
  - destruct Hcase as [Hd ->]. simpl. lia.
  - destruct Hcase as (_ & _ & r & Hexec).
    apply CreateSession_world in Hexec as (-> & _); [lia|done].
  - destruct Hcase as (_ & _ & ->). lia.
  - destruct Hcase as (_ & _ & r & Hexec).
    apply UpdateSessionData_world in Hexec as (-> & _); [lia|done].
  - subst s'. simpl. lia.
  - destruct Hcase as (ph & ph' & _ & Hnext & _).
    apply stopper_next_world in Hnext as (-> & _). lia.
  - destruct Hcase as (ph & ph' & _ & Hnext & _).
    apply cleaner_next_world in Hnext as (-> & _). lia.
Qed.















(** * Further properties of the code *)

(** ** The encoding of session IDs is injective *)

Lemma lor_shift_add (a b k : Z) :
  0 <= k -> 0 <= b < 2 ^ k -> Z.lor (Z.shiftl a k) b = a * 2 ^ k + b.
Proof.
  intros Hk Hb.
  assert (Z.land (Z.shiftl a k) b = 0) as Hland.
  { rewrite <- (Z.mod_small b (2 ^ k)) by lia.
    rewrite <- Z.land_ones by lia.
    rewrite (Z.land_comm b), Z.land_assoc, (Z.land_ones (Z.shiftl a k)) by lia.
    rewrite Z.shiftl_mul_pow2 by lia.
    rewrite Z.mod_mul by lia. reflexivity. }
  pose proof (Z.add_lor_land (Z.shiftl a k) b) as Hadd.
  rewrite Hland, Z.add_0_r in Hadd. rewrite Hadd.
  by rewrite Z.shiftl_mul_pow2 by lia.
Qed.

Lemma sextet (v k : Z) :
  0 <= k -> Z.land (Z.shiftr v k) 63 = (v / 2 ^ k) mod 64.
Proof.
  intros Hk. change 63 with (Z.ones 6). rewrite Z.land_ones by lia.
  by rewrite Z.shiftr_div_pow2 by lia.
Qed.

Lemma u_range (b : byte) : 0 <= base64.u b < 256.
Proof. unfold base64.u. pose proof (Byte.to_N_bounded b). lia. Qed.

Lemma u_inj (b b' : byte) : base64.u b = base64.u b' -> b = b'.
Proof.
  unfold base64.u. intros H. apply N2Z.inj in H.
  pose proof (Byte.of_to_N b) as H1. pose proof (Byte.of_to_N b') as H2.
  rewrite H in H1. congruence.
Qed.

Lemma encode_inj (i j : Z) :
  0 <= i < 64 -> 0 <= j < 64 -> base64.encode i = base64.encode j -> i = j.
Proof.
  intros Hi Hj. unfold base64.encode. intros H.
  assert (NoDup (list_ascii_of_string base64.encodeStd)) as Hnd.
  { refine (bool_decide_unpack (NoDup (list_ascii_of_string base64.encodeStd)) _).
    vm_compute. exact I. }
  assert (length (list_ascii_of_string base64.encodeStd) = 64%nat) as Hlen
    by reflexivity.
  assert (Z.to_nat i = Z.to_nat j); [|lia].
  destruct (nth_lookup_or_length (list_ascii_of_string base64.encodeStd)
              (Z.to_nat i) "A"%char) as [Hli|?]; [|lia].
  destruct (nth_lookup_or_length (list_ascii_of_string base64.encodeStd)
              (Z.to_nat j) "A"%char) as [Hlj|?]; [|lia].
  rewrite H in Hli. eapply NoDup_lookup; eauto.
Qed.

Lemma encode_not_pad (i : Z) : base64.encode i <> base64.StdPadding.
Proof.
  unfold base64.encode.
  assert (Forall (fun c => c <> base64.StdPadding)
            (list_ascii_of_string base64.encodeStd)) as Hall.
  { refine (bool_decide_unpack _ _). vm_compute. exact I. }
  rewrite Forall_lookup in Hall.
  destruct (nth_lookup_or_length (list_ascii_of_string base64.encodeStd)
              (Z.to_nat i) "A"%char) as [Hli|Hlen]; [by eapply Hall|].
  rewrite nth_overflow by lia. done.
Qed.

(** The value of a group of three, two and one bytes. *)
Lemma val3 (a0 a1 a2 : Z) :
  0 <= a0 < 256 -> 0 <= a1 < 256 -> 0 <= a2 < 256 ->
  Z.lor (Z.lor (Z.shiftl a0 16) (Z.shiftl a1 8)) a2
  = a0 * 65536 + a1 * 256 + a2.
Proof.
  intros H0 H1 H2. rewrite (Z.shiftl_mul_pow2 a1) by lia.
  rewrite (lor_shift_add a0 (a1 * 2 ^ 8) 16) by lia.
  replace (a0 * 2 ^ 16 + a1 * 2 ^ 8) with (Z.shiftl (a0 * 256 + a1) 8)
    by (rewrite Z.shiftl_mul_pow2; lia).
  rewrite lor_shift_add by lia. lia.
Qed.

Lemma val2 (a0 a1 : Z) :
  0 <= a0 < 256 -> 0 <= a1 < 256 ->
  Z.lor (Z.shiftl a0 16) (Z.shiftl a1 8) = a0 * 65536 + a1 * 256.
Proof.
  intros H0 H1. rewrite (Z.shiftl_mul_pow2 a1) by lia.
  rewrite (lor_shift_add a0 (a1 * 2 ^ 8) 16) by lia. lia.
Qed.

(** Equal characters come from equal sextets. *)
Lemma sextet_inj (va vb k : Z) :
  0 <= k ->
  base64.encode (Z.land (Z.shiftr va k) 63)
  = base64.encode (Z.land (Z.shiftr vb k) 63) ->
  (va / 2 ^ k) mod 64 = (vb / 2 ^ k) mod 64.
Proof.
  intros Hk. rewrite !sextet by lia.
  apply encode_inj; apply Z.mod_pos_bound; lia.
Qed.

Lemma sextet0_inj (va vb : Z) :
  base64.encode (Z.land va 63) = base64.encode (Z.land vb 63) ->
  va mod 64 = vb mod 64.
Proof.
  intros H. rewrite <- (Z.shiftr_0_r va), <- (Z.shiftr_0_r vb) in H.
  apply sextet_inj in H; [|lia]. by rewrite !Z.div_1_r in H.
Qed.

Lemma group3_inj (a0 a1 a2 b0 b1 b2 : byte) :
  let va := Z.lor (Z.lor (Z.shiftl (base64.u a0) 16) (Z.shiftl (base64.u a1) 8))
              (base64.u a2) in
  let vb := Z.lor (Z.lor (Z.shiftl (base64.u b0) 16) (Z.shiftl (base64.u b1) 8))
              (base64.u b2) in
  base64.encode (Z.land (Z.shiftr va 18) 63)
  = base64.encode (Z.land (Z.shiftr vb 18) 63) ->
  base64.encode (Z.land (Z.shiftr va 12) 63)
  = base64.encode (Z.land (Z.shiftr vb 12) 63) ->
  base64.encode (Z.land (Z.shiftr va 6) 63)
  = base64.encode (Z.land (Z.shiftr vb 6) 63) ->
  base64.encode (Z.land va 63) = base64.encode (Z.land vb 63) ->
  a0 = b0 /\ a1 = b1 /\ a2 = b2.
Proof.
  intros va vb H0 H1 H2 H3.
  pose proof (u_range a0). pose proof (u_range a1). pose proof (u_range a2).
  pose proof (u_range b0). pose proof (u_range b1). pose proof (u_range b2).
  apply sextet_inj in H0, H1, H2; try lia. apply sextet0_inj in H3.
  unfold va, vb in *. rewrite !val3 in * by done.
  change (2 ^ 6) with 64 in H2. change (2 ^ 12) with 4096 in H1.
  change (2 ^ 18) with 262144 in H0.
  assert (base64.u a0 = base64.u b0 /\ base64.u a1 = base64.u b1
          /\ base64.u a2 = base64.u b2) as (E0 & E1 & E2)
    by (Z.div_mod_to_equations; lia).
  auto using u_inj.
Qed.

Lemma group2_inj (a0 a1 b0 b1 : byte) :
  let va := Z.lor (Z.shiftl (base64.u a0) 16) (Z.shiftl (base64.u a1) 8) in
  let vb := Z.lor (Z.shiftl (base64.u b0) 16) (Z.shiftl (base64.u b1) 8) in
  base64.encode (Z.land (Z.shiftr va 18) 63)
  = base64.encode (Z.land (Z.shiftr vb 18) 63) ->
  base64.encode (Z.land (Z.shiftr va 12) 63)
  = base64.encode (Z.land (Z.shiftr vb 12) 63) ->
  base64.encode (Z.land (Z.shiftr va 6) 63)
  = base64.encode (Z.land (Z.shiftr vb 6) 63) ->
  a0 = b0 /\ a1 = b1.
Proof.
  intros va vb H0 H1 H2.
  pose proof (u_range a0). pose proof (u_range a1).
  pose proof (u_range b0). pose proof (u_range b1).
  apply sextet_inj in H0, H1, H2; try lia.
  unfold va, vb in *. rewrite !val2 in * by done.
  change (2 ^ 6) with 64 in H2. change (2 ^ 12) with 4096 in H1.
  change (2 ^ 18) with 262144 in H0.
  assert (base64.u a0 = base64.u b0 /\ base64.u a1 = base64.u b1) as (E0 & E1)
    by (Z.div_mod_to_equations; lia).
  auto using u_inj.
Qed.

Lemma group1_inj (a0 b0 : byte) :
  let va := Z.shiftl (base64.u a0) 16 in
  let vb := Z.shiftl (base64.u b0) 16 in
  base64.encode (Z.land (Z.shiftr va 18) 63)
  = base64.encode (Z.land (Z.shiftr vb 18) 63) ->
  base64.encode (Z.land (Z.shiftr va 12) 63)
  = base64.encode (Z.land (Z.shiftr vb 12) 63) ->
  a0 = b0.
Proof.
  intros va vb H0 H1.
  pose proof (u_range a0). pose proof (u_range b0).
  apply sextet_inj in H0, H1; try lia.
  unfold va, vb in *. rewrite !Z.shiftl_mul_pow2 in * by lia.
  change (2 ^ 16) with 65536 in *. change (2 ^ 12) with 4096 in H1.
  change (2 ^ 18) with 262144 in H0.
  assert (base64.u a0 = base64.u b0) by (Z.div_mod_to_equations; lia).
  auto using u_inj.
Qed.

Lemma Encode_inj_aux (n : nat) :
  forall src src' : list byte,
    (length src <= n)%nat ->
    base64.Encode src = base64.Encode src' -> src = src'.
Proof.
  induction n as [|n IH]; intros src src' Hlen Heq.
  - destruct src; [|simpl in Hlen; lia].
    by destruct src' as [|b0 [|b1 [|b2 rest]]].
  - destruct src as [|a0 [|a1 [|a2 rest]]].
    + by destruct src' as [|b0 [|b1 [|b2 rest']]].
    + destruct src' as [|b0 [|b1 [|b2 rest']]];
        cbn [base64.Encode] in Heq; cbv zeta in Heq; [done| | |].
      * injection Heq as H0 H1. by rewrite (group1_inj a0 b0 H0 H1).
      * injection Heq as H0 H1 H2. symmetry in H2. by apply encode_not_pad in H2.
      * injection Heq as H0 H1 H2 H3 H4. symmetry in H2.
        by apply encode_not_pad in H2.
    + destruct src' as [|b0 [|b1 [|b2 rest']]];
        cbn [base64.Encode] in Heq; cbv zeta in Heq; [done| | |].
      * injection Heq as H0 H1 H2. by apply encode_not_pad in H2.
      * injection Heq as H0 H1 H2.
        by destruct (group2_inj a0 a1 b0 b1 H0 H1 H2) as [-> ->].
      * injection Heq as H0 H1 H2 H3 H4. symmetry in H3.
        by apply encode_not_pad in H3.
    + destruct src' as [|b0 [|b1 [|b2 rest']]];
        cbn [base64.Encode] in Heq; cbv zeta in Heq; [done| | |].
      * injection Heq as H0 H1 H2 H3 H4. by apply encode_not_pad in H2.
      * injection Heq as H0 H1 H2 H3 H4. by apply encode_not_pad in H3.
      * injection Heq as H0 H1 H2 H3 H4.
        destruct (group3_inj a0 a1 a2 b0 b1 b2 H0 H1 H2 H3) as (-> & -> & ->).
        do 3 f_equal. apply IH; [simpl in Hlen; lia|done].
Qed.

Lemma list_ascii_inj (l l' : list ascii) :
  string_of_list_ascii l = string_of_list_ascii l' -> l = l'.
Proof.
  intros H. rewrite <- (list_ascii_of_string_of_list_ascii l),
    <- (list_ascii_of_string_of_list_ascii l'). by rewrite H.
Qed.

(** Different bytes have different encodings. *)
Lemma EncodeToString_inj (src src' : list byte) :
  base64.EncodeToString src = base64.EncodeToString src' -> src = src'.
Proof.
  unfold base64.EncodeToString. intros H%list_ascii_inj.
  by apply (Encode_inj_aux (length src)).
Qed.

(** X1: two calls of MakeSessionID that return the same ID without error
    have read the same 26 bytes from the entropy source: different
    random bytes never give the same session ID. *)
Theorem MakeSessionID_injective (w1 w2 w1' w2' : World) (id : string) :
  exec MakeSessionID w1 = Done (id, None) w1' ->
  exec MakeSessionID w2 = Done (id, None) w2' ->
  exists buf,
    length buf = 26%nat
    /\ readFull 26 (rand_Reader w1 (rand_reads w1)) = (buf, None)
    /\ readFull 26 (rand_Reader w2 (rand_reads w2)) = (buf, None).
Proof.
  rewrite !exec_MakeSessionID.
  destruct (readFull 26 (rand_Reader w1 (rand_reads w1))) as [buf1 [e1|]] eqn:H1;
    [done|].
  destruct (readFull 26 (rand_Reader w2 (rand_reads w2))) as [buf2 [e2|]] eqn:H2;
    [done|].
  intros [= <- _] [= Heq _]. apply EncodeToString_inj in Heq as ->.
  exists buf1. split; [|done]. by destruct (readFull_ok _ _ _ H1).
Qed.

Lemma MakeSessionID_injective_witness :
  exec MakeSessionID (world demo_store)
  = Done (demo_id, None) (next_read (world demo_store))
  /\ exec MakeSessionID (world repeat_store)
     = Done (demo_id, None) (next_read (world repeat_store))
  /\ exists buf,
       length buf = 26%nat
       /\ readFull 26 (rand_Reader (world demo_store) (rand_reads (world demo_store)))
          = (buf, None)
       /\ readFull 26 (rand_Reader (world repeat_store)
                         (rand_reads (world repeat_store)))
          = (buf, None).
Proof.
  assert (exec MakeSessionID (world demo_store)
          = Done (demo_id, None) (next_read (world demo_store))) as H1
    by (vm_compute; reflexivity).
  assert (exec MakeSessionID (world repeat_store)
          = Done (demo_id, None) (next_read (world repeat_store))) as H2
    by (vm_compute; reflexivity).
  split; [exact H1|]. split; [exact H2|].
  exact (MakeSessionID_injective _ _ _ _ demo_id H1 H2).
Defined.

(** ** The shape of session IDs *)

Lemma encode_in_alphabet (i : Z) :
  base64.encode i ∈ list_ascii_of_string base64.encodeStd.
Proof.
  unfold base64.encode.
  destruct (nth_lookup_or_length (list_ascii_of_string base64.encodeStd)
              (Z.to_nat i) "A"%char) as [Hli|Hlen].
  - by eapply list_elem_of_lookup_2.
  - rewrite nth_overflow by lia. vm_compute. apply list_elem_of_here.
Qed.

Lemma mod3_step (k : nat) : (S (S (S k)) mod 3 = k mod 3)%nat.
Proof.
  replace (S (S (S k))) with (k + 1 * 3)%nat by lia.
  apply Nat.Div0.mod_add.
Qed.

(** The encoding is made of characters of the alphabet followed by the
    padding that fills the last group. *)
Lemma Encode_shape (n : nat) :
  forall src : list byte,
    (length src <= n)%nat ->
    exists body,
      base64.Encode src
      = body ++ replicate ((3 - length src mod 3) mod 3) base64.StdPadding
      /\ Forall (fun c => c ∈ list_ascii_of_string base64.encodeStd) body.
Proof.
  induction n as [|n IH]; intros src Hlen.
  - destruct src; [|simpl in Hlen; lia]. by exists [].
  - destruct src as [|b0 [|b1 [|b2 rest]]].
    + by exists [].
    + eexists [_; _]. split; [reflexivity|].
      repeat (apply Forall_cons_2; [apply encode_in_alphabet|]).
      apply Forall_nil_2.
    + eexists [_; _; _]. split; [reflexivity|].
      repeat (apply Forall_cons_2; [apply encode_in_alphabet|]).
      apply Forall_nil_2.
    + destruct (IH rest) as (body & Hbody & Hall); [simpl in Hlen; lia|].
      cbn [base64.Encode length]. cbv zeta. rewrite Hbody, mod3_step.
      eexists (_ :: _ :: _ :: _ :: body). split; [reflexivity|].
      do 4 (apply Forall_cons_2; [apply encode_in_alphabet|]). done.
Qed.

(** X2: an ID returned by MakeSessionID without error consists of 35
    characters of the base64 alphabet followed by one padding character
    "=". *)
Theorem MakeSessionID_format (w w' : World) (id : string) :
  exec MakeSessionID w = Done (id, None) w' ->
  exists body,
    id = string_of_list_ascii (body ++ [base64.StdPadding])
    /\ length body = 35%nat
    /\ Forall (fun c => c ∈ list_ascii_of_string base64.encodeStd) body.
Proof.
  rewrite exec_MakeSessionID.
  destruct (readFull 26 (rand_Reader w (rand_reads w))) as [buf [e|]] eqn:Hread;
    [done|].
  intros [= <- _]. destruct (readFull_ok _ _ _ Hread) as [Hlen _].
  destruct (Encode_shape (length buf) buf (le_n _)) as (body & Hbody & Hall).
  rewrite Hlen in Hbody. change ((3 - 26 mod 3) mod 3)%nat with 1%nat in Hbody.
  exists body. unfold base64.EncodeToString. rewrite Hbody.
  split; [done|]. split; [|done].
  pose proof (base64_facts.EncodeToString_length buf) as Hl.
  unfold base64.EncodeToString in Hl.
  rewrite base64_facts.length_string_of_list_ascii, Hbody, Hlen, length_app in Hl.
  change (base64.EncodedLen 26) with 36%nat in Hl. simpl in Hl. lia.
Qed.

Lemma MakeSessionID_format_witness :
  exec MakeSessionID (world demo_store)
  = Done (demo_id, None) (next_read (world demo_store))
  /\ exists body,
       demo_id = string_of_list_ascii (body ++ [base64.StdPadding])
       /\ length body = 35%nat
       /\ Forall (fun c => c ∈ list_ascii_of_string base64.encodeStd) body.
Proof.
  assert (exec MakeSessionID (world demo_store)
          = Done (demo_id, None) (next_read (world demo_store))) as H1
    by (vm_compute; reflexivity).
  split; [exact H1|].
  exact (MakeSessionID_format _ _ demo_id H1).
Defined.

(** ** The keys of the store *)

Lemma issued_length (w : World) (id : string) :
  issued w id -> String.length id = 36%nat.
Proof.
  intros (n & buf & _ & Hread & ->).
  destruct (readFull_ok _ _ _ Hread) as [Hlen _].
  by rewrite base64_facts.EncodeToString_length, Hlen.
Qed.

Lemma issued_mono (w w' : World) (id : string) :
  rand_Reader w' = rand_Reader w -> (rand_reads w <= rand_reads w')%nat ->
  issued w id -> issued w' id.
Proof.
  intros HR Hn (n & buf & Hlt & Hread & ->).
  exists n, buf. rewrite HR. repeat split; [lia|done].
Qed.

(** Every key of a store reached from NewSessionManager was issued by
    CreateSession. *)
Lemma reachable_issued (s : System) :
  reachable s ->
  forall id, is_Some (sessions (world s) !! id) -> issued (world s) id.
Proof.
  intros Hreach. revert s Hreach.
  apply (reachable_induction
           (fun s => forall id, is_Some (sessions (world s) !! id) ->
                                issued (world s) id)).
  { intros reader start id [sess Hl]. simpl in Hl. by rewrite lookup_empty in Hl. }
  intros e s s' Hinv IH Hstep id Hid. pose proof (inv_free s Hinv) as Hfree.
  destruct (step_cases e s s' Hinv Hstep) as [_ Hcase].
  destruct e; cbv beta iota in Hcase.
  - destruct Hcase as [_ ->]. by apply IH.
  - destruct Hcase as (_ & _ & r & Hexec).
    rewrite exec_CreateSession in Hexec by done.
    destruct (readFull 26 _) as [buf [err|]] eqn:Hread; injection Hexec as _ Hw;
      rewrite <- Hw in *; simpl in Hid.
    + apply (issued_mono (world s)); simpl; [done|lia|by apply IH].
    + destruct (decide (base64.EncodeToString buf = id)) as [<-|Hne].
      * exists (rand_reads (world s)), buf. simpl. repeat split; [lia|done].
      * rewrite lookup_insert_ne in Hid by done.
        apply (issued_mono (world s)); simpl; [done|lia|by apply IH].
  - destruct Hcase as (_ & _ & Hw). rewrite Hw in *. by apply IH.
  - destruct Hcase as (_ & _ & r & Hexec).
    rewrite exec_UpdateSessionData in Hexec by done.
    destruct (sessions (world s) !! id0) as [old|] eqn:Hl;
      injection Hexec as _ Hw; rewrite <- Hw in *; [|by apply IH].
    apply (issued_mono (world s)); simpl; [done|lia|]. apply IH.
    simpl in Hid. destruct (decide (id0 = id)) as [->|Hne]; [eauto|].
    by rewrite lookup_insert_ne in Hid.
  - subst s'. by apply IH.
  - destruct Hcase as (ph & ph' & _ & Hnext & _).
    apply stopper_next_world in Hnext as (_ & _ & Hn & HR & _ & Hs & _).
    apply (issued_mono (world s)); [done|lia|]. apply IH. by rewrite <- Hs.
  - destruct Hcase as (ph & ph' & _ & Hnext & _).
    apply cleaner_next_world in Hnext as (_ & _ & Hn & HR & _ & _ & Hs).
    apply (issued_mono (world s)); [done|lia|]. apply IH.
    destruct Hs as [(_ & _ & Hw)|[_ Hs]]; [|by rewrite <- Hs].
    rewrite Hw, sessions_cleaned in Hid.
    destruct (sessions (world s) !! id); [eauto|by destruct Hid].
Qed.

(** X3: every key of the map of a store reached from NewSessionManager
    is an ID that CreateSession issued: the padded base64 encoding, 36
    characters long, of 26 bytes supplied by the entropy source at one
    of the reads made so far.  Updates and the cleaner never add keys. *)
Theorem keys_issued (s : System) (id : string) :
  reachable s -> is_Some (sessions (world s) !! id) ->
  issued (world s) id /\ String.length id = 36%nat.
Proof.
  intros Hreach Hid.
  assert (issued (world s) id) as Hiss by (by apply reachable_issued).
  split; [done|by eapply issued_length].
Qed.

Lemma keys_issued_witness :
  reachable busy_store
  /\ is_Some (sessions (world busy_store) !! demo_id)
  /\ issued (world busy_store) demo_id
  /\ String.length demo_id = 36%nat.
Proof.
  assert (reachable busy_store) as Hreach
    by (apply (reachable_possible _ demo_reader 0); vm_compute; reflexivity).
  assert (is_Some (sessions (world busy_store) !! demo_id)) as Hid.
  { exists {| Data := MapAt 9; LastUpdate := 1 * Second |}.
    vm_compute. reflexivity. }
  split; [exact Hreach|]. split; [exact Hid|].
  exact (keys_issued busy_store demo_id Hreach Hid).
Defined.

(** ** What the operations leave alone, in a running store *)





(** ** How the operations compose *)

(** X4: a second pass of the cleaner at the same clock reading changes
    nothing: it deletes no session and writes no log record. *)
Theorem cleanSessions_idempotent (w w1 w2 : World) :
  locked w = false ->
  exec cleanSessions w = Done tt w1 ->
  exec cleanSessions w1 = Done tt w2 ->
  w2 = w1.
Proof.
  intros Hfree. rewrite exec_cleanSessions by done. intros [= <-].
  rewrite exec_cleanSessions by (by rewrite locked_cleaned). intros [= <-].
  assert (expiredKeys (clock (cleaned w)) (map_to_list (sessions (cleaned w))) = [])
    as Hkeys.
  { apply elem_of_nil_inv. intros id Hin.
    apply elem_of_expiredKeys in Hin as (sess & Hl & He).
    rewrite sessions_cleaned in Hl.
    destruct (sessions w !! id) as [old|]; [|done].
    destruct (expired (clock w) old) eqn:Hold; [done|].
    injection Hl as ->.
    rewrite (proj1 (proj2 (proj2 (cleaned_frame w)))) in He. congruence. }
  unfold cleaned at 1. rewrite Hkeys. simpl.
  destruct (size (sessions (cleaned w)) =? 0)%nat; [done|].
  by destruct (cleaned w).
Qed.

Lemma cleanSessions_idempotent_witness :
  locked (world stale_store) = false
  /\ exec cleanSessions (world stale_store) = Done tt (cleaned (world stale_store))
  /\ exec cleanSessions (cleaned (world stale_store))
     = Done tt (cleaned (world stale_store)).
Proof.
  assert (locked (world stale_store) = false) as Hfree by reflexivity.
  assert (exec cleanSessions (world stale_store)
          = Done tt (cleaned (world stale_store))) as H1
    by (apply exec_cleanSessions; exact Hfree).
  assert (exec cleanSessions (cleaned (world stale_store))
          = Done tt (cleaned (cleaned (world stale_store)))) as H2
    by (apply exec_cleanSessions; rewrite locked_cleaned; exact Hfree).
  split; [exact Hfree|]. split; [exact H1|].
  exact (eq_trans H2 (f_equal (Done tt)
                        (cleanSessions_idempotent _ _ _ Hfree H1 H2))).
Defined.

(** X5: after CreateSession has returned an ID without error,
    GetSessionData on that ID returns, without error, a map that did
    not exist before the creation and is empty. *)
Theorem create_then_get (w w' : World) (id : string) :
  locked w = false ->
  exec CreateSession w = Done (id, None) w' ->
  exists l,
    exec (GetSessionData id) w' = Done (MapAt l, None) w'
    /\ heap w !! l = None
    /\ heap w' !! l = Some ∅.
Proof.
  intros Hfree. rewrite exec_CreateSession by done.
  destruct (readFull 26 _) as [buf [e|]]; [done|]. intros [= <- <-].
  exists (fresh (dom (heap w))).
  rewrite exec_GetSessionData by done. unfold created. simpl.
  rewrite !lookup_insert_eq. repeat split.
  apply not_elem_of_dom, is_fresh.
Qed.

Lemma create_then_get_witness :
  locked (world demo_store) = false
  /\ exec CreateSession (world demo_store)
     = Done (demo_id, None) (created demo_id (world demo_store))
  /\ exists l,
       exec (GetSessionData demo_id) (created demo_id (world demo_store))
       = Done (MapAt l, None) (created demo_id (world demo_store))
       /\ heap (world demo_store) !! l = None
       /\ heap (created demo_id (world demo_store)) !! l = Some ∅.
Proof.
  assert (locked (world demo_store) = false) as Hfree by reflexivity.
  assert (exec CreateSession (world demo_store)
          = Done (demo_id, None) (created demo_id (world demo_store))) as H1
    by (vm_compute; reflexivity).
  split; [exact Hfree|]. split; [exact H1|].
  exact (create_then_get _ _ demo_id Hfree H1).
Defined.

(** X6: two calls of CreateSession in a row that both succeed, on
    different bytes from the entropy source, return different IDs; both
    sessions are in the map afterwards, each with a map of its own as
    data, and the map has grown by two when neither ID was in use. *)
Theorem create_twice (w w1 w2 : World) (id1 id2 : string) :
  locked w = false ->
  exec CreateSession w = Done (id1, None) w1 ->
  exec CreateSession w1 = Done (id2, None) w2 ->
  (readFull 26 (rand_Reader w (rand_reads w))).1
  <> (readFull 26 (rand_Reader w (S (rand_reads w)))).1 ->
  id1 <> id2
  /\ (exists l1 l2,
        l1 <> l2
        /\ sessions w2 !! id1 = Some {| Data := MapAt l1; LastUpdate := clock w |}
        /\ sessions w2 !! id2 = Some {| Data := MapAt l2; LastUpdate := clock w |})
  /\ (sessions w !! id1 = None -> sessions w !! id2 = None ->
      size (sessions w2) = S (S (size (sessions w)))).
Proof.
  intros Hfree. rewrite exec_CreateSession by done.
  destruct (readFull 26 (rand_Reader w (rand_reads w))) as [buf1 [e|]]; [done|].
  intros [= <- <-]. rewrite exec_CreateSession by done. simpl.
  destruct (readFull 26 (rand_Reader w (S (rand_reads w)))) as [buf2 [e|]];
    [done|].
  intros [= <- <-] Hbuf. simpl in Hbuf.
  assert (base64.EncodeToString buf1 <> base64.EncodeToString buf2) as Hne
    by (intros Heq; by apply EncodeToString_inj in Heq).
  split; [done|]. split.
  - exists (fresh (dom (heap w))),
      (fresh (dom (<[fresh (dom (heap w)) := ∅]> (heap w)))).
    unfold created. simpl. split; [|split].
    + intros Heq. pose proof (is_fresh (dom (<[fresh (dom (heap w)) := ∅]> (heap w))))
        as Hfr. rewrite <- Heq in Hfr. apply Hfr.
      apply elem_of_dom. rewrite lookup_insert_eq. eauto.
    + by rewrite lookup_insert_ne, lookup_insert_eq by done.
    + by rewrite lookup_insert_eq.
  - intros H1 H2. unfold created. simpl.
    rewrite map_size_insert_None by (by rewrite lookup_insert_ne).
    by rewrite map_size_insert_None.
Qed.

Lemma create_twice_witness :
  let w := world demo_store in
  let w1 := created demo_id w in
  let id2 := "WllYV1ZVVFNSUVBPTk1MS0pJSEdGRURDQkE="%string in
  locked w = false
  /\ exec CreateSession w = Done (demo_id, None) w1
  /\ exec CreateSession w1 = Done (id2, None) (created id2 w1)
  /\ demo_id <> id2.
Proof.
  assert (locked (world demo_store) = false) as Hfree by reflexivity.
  assert (exec CreateSession (world demo_store)
          = Done (demo_id, None) (created demo_id (world demo_store))) as H1
    by (vm_compute; reflexivity).
  assert (exec CreateSession (created demo_id (world demo_store))
          = Done ("WllYV1ZVVFNSUVBPTk1MS0pJSEdGRURDQkE="%string, None)
              (created "WllYV1ZVVFNSUVBPTk1MS0pJSEdGRURDQkE="
                 (created demo_id (world demo_store)))) as H2
    by (vm_compute; reflexivity).
  split; [exact Hfree|]. split; [exact H1|]. split; [exact H2|].
  refine (proj1 (create_twice _ _ _ _ _ Hfree H1 H2 _)).
  vm_compute. discriminate.
Defined.

(** ** A single call of StopSession *)

Lemma cleaner_next_closed (ph ph' : CleanerPhase) (w w' : World) :
  cleaner_next ph w = Some (ph', w') -> done_closed w' = done_closed w.
Proof.
  destruct ph; simpl; intros Hnext;
    repeat match type of Hnext with
           | context [if ?b then _ else _] => destruct b eqn:?
           | context [match ?l with [] => _ | _ :: _ => _ end] => destruct l eqn:?
           end;
    simplify_eq; simpl; auto.
  apply cleaned_frame.
Qed.

Lemma is_panicked_cleaner_in (ph : CleanerPhase) :
  is_panicked (cleaner_in ph) = false.
Proof. by destruct ph. Qed.

Lemma Calm_NewSessionManager (reader : nat -> Entropy) (start : Z) :
  Calm (NewSessionManager reader start).
Proof.
  split; simpl; try done; [apply Inv_NewSessionManager|lia].
Qed.

Lemma Calm_step (e : Event) (s s' : System) :
  Calm s ->
  (length (stoppers s) + (if is_call_stop e then 1 else 0) <= 1)%nat ->
  step e s = Some s' ->
  Calm s'
  /\ length (stoppers s')
     = (length (stoppers s) + (if is_call_stop e then 1 else 0))%nat.
Proof.
  intros [Hinv Hok Hone Hcl] Hcount Hstep.
  pose proof (inv_free s Hinv) as Hfree.
  pose proof (Inv_step e s s' Hinv Hstep) as Hinv'.
  destruct (step_cases e s s' Hinv Hstep) as [_ Hcase].
  destruct e; cbv beta iota in Hcase; simpl in Hcount |- *.
  - destruct Hcase as [_ ->]. split; [|simpl; lia]. by split.
  - destruct Hcase as (Hc & Hs & r & Hexec).
    apply CreateSession_world in Hexec as (_ & _ & _ & Hd & _); [|done].
    split; [|rewrite Hs; lia].
    split; [done| |by rewrite Hs|by rewrite Hs, Hd].
    unfold crashed in *. by rewrite Hc, Hs.
  - destruct Hcase as (Hc & Hs & Hw). split; [|rewrite Hs; lia].
    split; [done| |by rewrite Hs|by rewrite Hs, Hw].
    unfold crashed in *. by rewrite Hc, Hs.
  - destruct Hcase as (Hc & Hs & r & Hexec).
    apply UpdateSessionData_world in Hexec as (_ & _ & _ & Hd & _); [|done].
    split; [|rewrite Hs; lia].
    split; [done| |by rewrite Hs|by rewrite Hs, Hd].
    unfold crashed in *. by rewrite Hc, Hs.
  - subst s'. simpl. rewrite length_app. simpl. split; [|done].
    assert (stoppers s = []) as Hnil by (destruct (stoppers s); [done|simpl in *; lia]).
    split; simpl; [done| |rewrite length_app; simpl; lia|].
    + destruct s as [w c st]. by apply (crashed_snoc w).
    + intros Hclosed. specialize (Hcl Hclosed). congruence.
  - destruct Hcase as (ph & ph' & Hph & Hnext & Hc & Hs).
    rewrite Hs, length_insert. split; [|lia].
    assert (stoppers s = [stopper_in ph] /\ i = 0%nat) as [Hst ->].
    { destruct (stoppers s) as [|g [|g' l]] eqn:Hl; simpl in *; [by destruct i| |lia].
      destruct i; simpl in Hph; [by injection Hph as ->|done]. }
    assert (done_closed (world s) = false) as Hopen.
    { destruct (done_closed (world s)) eqn:Hd; [|done].
      specialize (Hcl eq_refl). rewrite Hst in Hcl.
      assert (ph = Left) as ->
        by (apply stopper_in_inj; congruence).
      done. }
    assert ((forall msg, ph' <> Blown msg)
            /\ (done_closed (world s') = true -> ph' = Left)) as [Hnb Hleft].
    { destruct ph; simpl in Hnext; rewrite ?Hopen in Hnext;
        repeat match type of Hnext with
               | context [if ?b then _ else _] => destruct b eqn:?
               end; simplify_eq; split; try done;
        match goal with H : _ = world s' |- _ => rewrite <- H end;
        simpl; congruence. }
    split; [done| |by rewrite Hs, length_insert|].
    + unfold crashed in *. rewrite Hc, Hs, Hst. simpl.
      apply orb_false_iff in Hok as [-> _]. simpl.
      destruct ph'; try done. by destruct (Hnb msg).
    + intros Hclosed. rewrite Hs, Hst. simpl. by rewrite (Hleft Hclosed).
  - destruct Hcase as (ph & ph' & Hph & Hnext & Hc & Hs).
    split; [|rewrite Hs; lia].
    split; [done| |by rewrite Hs|].
    + unfold crashed in *. rewrite Hc, Hs, is_panicked_cleaner_in.
      by apply orb_false_iff in Hok as [_ ->].
    + rewrite Hs, (cleaner_next_closed _ _ _ _ Hnext). done.
Qed.

Lemma stop_calls_cons (e : Event) (es : list Event) :
  stop_calls (e :: es) = ((if is_call_stop e then 1 else 0) + stop_calls es)%nat.
Proof. unfold stop_calls. simpl. by destruct (is_call_stop e). Qed.

Lemma Calm_run (es : list Event) (s s' : System) :
  Calm s -> (length (stoppers s) + stop_calls es <= 1)%nat ->
  run es s = Some s' -> Calm s'.
Proof.
  revert s. induction es as [|e es IH]; intros s Hcalm Hcount; simpl.
  - by intros [= <-].
  - destruct (step e s) as [s1|] eqn:He; [|done]. simpl.
    rewrite stop_calls_cons in Hcount.
    destruct (Calm_step e s s1 Hcalm) as [Hcalm1 Hlen1]; [lia|done|].
    apply IH; [done|]. rewrite Hlen1. lia.
Qed.

(** X7: in a run from NewSessionManager in which StopSession is called
    at most once, nothing panics: neither the cleaner nor the call of
    StopSession, whatever the order of the steps. *)
Theorem single_stop_safe (reader : nat -> Entropy) (start : Z)
    (es : list Event) (s : System) :
  run es (NewSessionManager reader start) = Some s ->
  (stop_calls es <= 1)%nat ->
  crashed s = false.
Proof.
  intros Hrun Hcount.
  apply calm_ok, (Calm_run es (NewSessionManager reader start));
    [apply Calm_NewSessionManager|simpl; lia|done].
Qed.

Lemma single_stop_safe_witness :
  run teardown_run demo_store = Some (after teardown_run demo_store)
  /\ (stop_calls teardown_run <= 1)%nat
  /\ crashed (after teardown_run demo_store) = false.
Proof.
  assert (run teardown_run (NewSessionManager demo_reader 0)
          = Some (after teardown_run demo_store)) as Hrun
    by (apply run_after; vm_compute; reflexivity).
  assert (stop_calls teardown_run <= 1)%nat as Hcount
    by (vm_compute; lia).
  split; [exact Hrun|]. split; [exact Hcount|].
  exact (single_stop_safe demo_reader 0 teardown_run _ Hrun Hcount).
Defined.

(** ** Reading does not renew a session *)

(** X8: calls of GetSessionData, however many and however late, leave
    every session as it is, LastUpdate included; so a session that was
    only read since its last update is removed by a pass of the cleaner
    that runs TTL or more after that update. *)
Theorem get_does_not_renew (s s' : System) (es : list Event) (id : string)
    (sess : Session) :
  reachable s ->
  Forall (fun e => is_read e = true) es ->
  run es s = Some s' ->
  sessions (world s) !! id = Some sess ->
  sessions (world s') !! id = Some sess
  /\ (TTL <= clock (world s') - LastUpdate sess ->
      sessions (cleaned (world s')) !! id = None).
Proof.
  intros Hreach Hread Hrun Hid.
  assert (sessions (world s') = sessions (world s)) as Hsame.
  { pose proof (reachable_Inv s Hreach) as Hinv. clear Hreach Hid.
    revert s Hinv Hrun. induction Hread as [|e es He Hes IH]; intros s Hinv; simpl.
    - by intros [= <-].
    - destruct (step e s) as [s1|] eqn:Hstep; [|done]. simpl. intros Hrun.
      rewrite (IH s1 (Inv_step _ _ _ Hinv Hstep) Hrun).
      destruct (step_cases e s s1 Hinv Hstep) as [_ Hcase].
      destruct e; try done; cbv beta iota in Hcase.
      + by destruct Hcase as [_ ->].
      + destruct Hcase as (_ & _ & ->). done. }
  rewrite Hsame. split; [done|]. intros Hold.
  rewrite sessions_cleaned, Hsame, Hid.
  by rewrite (proj2 (expired_true _ _) Hold).
Qed.

Lemma get_does_not_renew_witness :
  let s := after [CallCreate] demo_store in
  let es := [Tick (4 * Second); CallGet demo_id; Tick Second; CallGet demo_id] in
  reachable s
  /\ Forall (fun e => is_read e = true) es
  /\ run es s = Some (after es s)
  /\ sessions (world s) !! demo_id = Some {| Data := MapAt 1; LastUpdate := 0 |}
  /\ sessions (cleaned (world (after es s))) !! demo_id = None.
Proof.
  assert (reachable (after [CallCreate] demo_store)) as Hreach
    by (apply (reachable_possible _ demo_reader 0); vm_compute; reflexivity).
  assert (Forall (fun e => is_read e = true)
            [Tick (4 * Second); CallGet demo_id; Tick Second; CallGet demo_id])
    as Hread by (repeat constructor).
  assert (run [Tick (4 * Second); CallGet demo_id; Tick Second; CallGet demo_id]
            (after [CallCreate] demo_store)
          = Some (after [Tick (4 * Second); CallGet demo_id; Tick Second;
                         CallGet demo_id] (after [CallCreate] demo_store))) as Hrun
    by (apply run_after; vm_compute; reflexivity).
  assert (sessions (world (after [CallCreate] demo_store)) !! demo_id
          = Some {| Data := MapAt 1; LastUpdate := 0 |}) as Hid
    by (vm_compute; reflexivity).
  split; [exact Hreach|]. split; [exact Hread|]. split; [exact Hrun|].
  split; [exact Hid|].
  apply (proj2 (get_does_not_renew _ _ _ demo_id _ Hreach Hread Hrun Hid)).
  assert (clock (world (after [Tick (4 * Second); CallGet demo_id; Tick Second;
                               CallGet demo_id] (after [CallCreate] demo_store)))
          = 5 * Second) as -> by (vm_compute; reflexivity).
  vm_compute. discriminate.
Defined.

(** X9: of two successful calls of UpdateSessionData on the same ID in a
    row, only the second shows: the world is the one the second call
    alone would have led to. *)
Theorem update_twice (w w1 w2 : World) (id : string) (d1 d2 : MapRef)
    (err : option error) :
  locked w = false ->
  exec (UpdateSessionData id d1) w = Done None w1 ->
  exec (UpdateSessionData id d2) w1 = Done err w2 ->
  err = None
  /\ exec (UpdateSessionData id d2) w = Done None w2
  /\ exec (GetSessionData id) w2 = Done (d2, None) w2.
Proof.
  intros Hfree H1 H2. rewrite exec_UpdateSessionData in H1 by done.
  destruct (sessions w !! id) as [old|] eqn:Hl; [|done]. injection H1 as <-.
  rewrite exec_UpdateSessionData in H2 by done.
  assert (sessions (updated id d1 w) !! id
          = Some {| Data := d1; LastUpdate := clock w |}) as Hl1
    by apply lookup_insert_eq.
  rewrite Hl1 in H2. injection H2 as <- <-.
  split; [done|]. split.
  - rewrite exec_UpdateSessionData, Hl by done. f_equal.
    unfold updated, set_sessions. simpl. f_equal.
    by rewrite insert_insert_eq.
  - rewrite exec_GetSessionData by done. unfold updated. simpl.
    by rewrite lookup_insert_eq.
Qed.

Lemma update_twice_witness :
  let w := world busy_store in
  locked w = false
  /\ exec (UpdateSessionData demo_id (MapAt 4)) w
     = Done None (updated demo_id (MapAt 4) w)
  /\ exec (UpdateSessionData demo_id (MapAt 5)) (updated demo_id (MapAt 4) w)
     = Done None (updated demo_id (MapAt 5) (updated demo_id (MapAt 4) w))
  /\ exec (UpdateSessionData demo_id (MapAt 5)) w
     = Done None (updated demo_id (MapAt 5) (updated demo_id (MapAt 4) w)).
Proof.
  assert (locked (world busy_store) = false) as Hfree by reflexivity.
  assert (exec (UpdateSessionData demo_id (MapAt 4)) (world busy_store)
          = Done None (updated demo_id (MapAt 4) (world busy_store))) as H1
    by (vm_compute; reflexivity).
  assert (exec (UpdateSessionData demo_id (MapAt 5))
            (updated demo_id (MapAt 4) (world busy_store))
          = Done None (updated demo_id (MapAt 5)
                         (updated demo_id (MapAt 4) (world busy_store)))) as H2
    by (vm_compute; reflexivity).
  split; [exact Hfree|]. split; [exact H1|]. split; [exact H2|].
  exact (proj1 (proj2 (update_twice _ _ _ demo_id _ _ _ Hfree H1 H2))).
Defined.

(** ** The pace of the cleaner *)

Lemma next_pass_step (c : Z) (e : Event) (s s' : System) :
  Inv s -> next_pass_after c s -> step e s = Some s' -> next_pass_after c s'.
Proof.
  intros Hinv (ph & Hph & Hb) Hstep. pose proof (inv_free s Hinv) as Hfree.
  pose proof (clock_step e s s' Hinv Hstep) as Hclock.
  destruct (step_cases e s s' Hinv Hstep) as [_ Hcase].
  assert (cleaner s' = cleaner s -> next_pass_after c s') as Hsame.
  { intros Hc. exists ph. rewrite Hc. split; [done|]. destruct ph; lia. }
  destruct e; cbv beta iota in Hcase.
  - destruct Hcase as [_ ->]. by apply Hsame.
  - apply Hsame, Hcase.
  - apply Hsame, Hcase.
  - apply Hsame, Hcase.
  - subst s'. by apply Hsame.
  - destruct Hcase as (_ & _ & _ & _ & Hc & _). by apply Hsame.
  - destruct Hcase as (ph0 & ph' & Hph0 & Hnext & Hc' & _).
    rewrite Hph in Hph0. apply cleaner_in_inj in Hph0 as <-.
    exists ph'. split; [done|].
    pose proof (cleaner_next_world _ _ _ _ Hnext) as (Hck & _).
    assert (Second = 1000000000) as HS by reflexivity.
    destruct ph as [| |wake| | |]; simpl in Hnext.
    + destruct (done_closed (world s)); [by simplify_eq|].
      destruct (done_sendq (world s)); simplify_eq; [lia|done].
    + simplify_eq. lia.
    + destruct (Z.leb_spec wake (clock (world s))); simplify_eq. lia.
    + destruct (locked (world s)); simplify_eq. lia.
    + by simplify_eq.
    + done.
Qed.

(** X10: two passes of the cleaner are at least five seconds apart: when
    the cleaner has just made a pass (it is at its select) at time c, it
    is not about to make another pass before time c + 5s, however the
    run goes on. *)
Theorem passes_apart (s s' : System) (es : list Event) :
  reachable s ->
  cleaner s = cleaner_in AtSelect ->
  run es s = Some s' ->
  cleaner s' = cleaner_in AtClean ->
  clock (world s) + 5 * Second <= clock (world s').
Proof.
  intros Hreach Hsel Hrun Hclean.
  assert (next_pass_after (clock (world s)) s') as (ph & Hph & Hb).
  { pose proof (reachable_Inv s Hreach) as Hinv.
    assert (next_pass_after (clock (world s)) s) as Hstart
      by (exists AtSelect; split; [done|simpl; lia]).
    revert Hinv Hstart Hrun. generalize (clock (world s)). clear.
    revert s. induction es as [|e es IH]; intros s c Hinv Hstart; simpl.
    - by intros [= <-].
    - destruct (step e s) as [s1|] eqn:He; [|done]. simpl.
      apply IH; [by eapply Inv_step|by eapply next_pass_step]. }
  rewrite Hclean in Hph. apply cleaner_in_inj in Hph as <-. exact Hb.
Qed.

Lemma at_clean_by_tag (s : System) :
  reachable s -> phase_tag (cleaner s) = 3%nat -> cleaner s = cleaner_in AtClean.
Proof.
  intros Hreach Htag. destruct (inv_cleaner s (reachable_Inv s Hreach)) as [ph Hph].
  rewrite Hph in *. by destruct ph.
Qed.

Lemma passes_apart_witness :
  let es := [StepCleaner; StepCleaner; Tick (5 * Second); StepCleaner] in
  reachable demo_store
  /\ cleaner demo_store = cleaner_in AtSelect
  /\ run es demo_store = Some (after es demo_store)
  /\ cleaner (after es demo_store) = cleaner_in AtClean
  /\ clock (world demo_store) + 5 * Second <= clock (world (after es demo_store)).
Proof.
  assert (reachable demo_store) as Hreach by (exists demo_reader, 0, []; reflexivity).
  assert (cleaner demo_store = cleaner_in AtSelect) as Hsel by reflexivity.
  assert (run [StepCleaner; StepCleaner; Tick (5 * Second); StepCleaner] demo_store
          = Some (after [StepCleaner; StepCleaner; Tick (5 * Second); StepCleaner]
                    demo_store)) as Hrun
    by (apply run_after; vm_compute; reflexivity).
  assert (cleaner (after [StepCleaner; StepCleaner; Tick (5 * Second); StepCleaner]
                     demo_store) = cleaner_in AtClean) as Hclean.
  { apply at_clean_by_tag; [|vm_compute; reflexivity].
    apply (reachable_possible _ demo_reader 0). vm_compute. reflexivity. }
  split; [exact Hreach|]. split; [exact Hsel|]. split; [exact Hrun|].
  split; [exact Hclean|].
  exact (passes_apart _ _ _ Hreach Hsel Hrun Hclean).
Defined.

(** * The service time limit *)

Lemma wrap64_small (z : Z) : - 2 ^ 63 <= z < 2 ^ 63 -> limit.wrap64 z = z.
Proof.
  intros Hz. unfold limit.wrap64. rewrite Z.mod_small by lia. lia.
Qed.

Lemma over_quota (u : limit.User) (fired : list limit.Fired) :
  limit.IsPremium u = false -> 10 <= limit.TimeUsed u ->
  limit.HandleRequest u fired
  = {| limit.returned := Some false; limit.user := u; limit.started := false |}.
Proof.
  intros Hp Hused. unfold limit.HandleRequest. rewrite Hp. simpl.
  by rewrite (proj2 (Z.leb_le _ _) Hused).
Qed.

Lemma under_quota (u : limit.User) (f : limit.Fired) (rest : list limit.Fired) :
  limit.IsPremium u = false -> limit.TimeUsed u < 10 ->
  limit.HandleRequest u (f :: rest)
  = {| limit.returned := Some (limit.is_done f);
       limit.user := {| limit.ID := limit.ID u; limit.IsPremium := false;
                        limit.TimeUsed
                        := limit.wrap64
                             (limit.TimeUsed u
                              + match f with
                                | limit.FromDone _ t => t
                                | limit.FromTimer _ t => t
                                end) |};
       limit.started := true |}.
Proof.
  intros Hp Hused. unfold limit.HandleRequest. rewrite Hp. simpl.
  rewrite (proj2 (Z.leb_gt _ _)) by lia.
  destruct f; simpl; rewrite Hp; unfold limit.addTime; by rewrite Hp.
Qed.

(** X11: HandleRequest refuses a user who is not premium and has used 10
    seconds or more: it returns false at once, starts no process and
    leaves the user as it is, whatever would have happened in the
    loop. *)
Theorem HandleRequest_refuses (u : limit.User) (fired : list limit.Fired) :
  limit.IsPremium u = false -> 10 <= limit.TimeUsed u ->
  limit.HandleRequest u fired
  = {| limit.returned := Some false; limit.user := u; limit.started := false |}.
Proof. apply over_quota. Qed.

Lemma HandleRequest_refuses_witness :
  let u := {| limit.ID := 7; limit.IsPremium := false; limit.TimeUsed := 10 |} in
  limit.IsPremium u = false /\ 10 <= limit.TimeUsed u
  /\ limit.HandleRequest u [limit.FromDone 0 0]
     = {| limit.returned := Some false; limit.user := u; limit.started := false |}.
Proof.
  split; [reflexivity|]. split; [simpl; lia|].
  apply HandleRequest_refuses; [reflexivity|simpl; lia].
Defined.

Lemma selectLoop_premium (u : limit.User) (fired : list limit.Fired) :
  limit.IsPremium u = true ->
  (limit.selectLoop u fired).2 = u
  /\ (limit.selectLoop u fired).1
     = if existsb limit.is_done fired then Some true else None.
Proof.
  intros Hp. induction fired as [|[e t|e t] rest IH]; simpl; rewrite ?Hp; auto.
Qed.

(** X12: for a premium user HandleRequest always starts the process,
    never returns false and never changes the user (TimeUsed included);
    it returns true exactly when the receive from done is taken in some
    round, and goes on waiting through any number of timers. *)
Theorem HandleRequest_premium (u : limit.User) (fired : list limit.Fired) :
  limit.IsPremium u = true ->
  limit.started (limit.HandleRequest u fired) = true
  /\ limit.user (limit.HandleRequest u fired) = u
  /\ limit.returned (limit.HandleRequest u fired) <> Some false
  /\ limit.returned (limit.HandleRequest u fired)
     = if existsb limit.is_done fired then Some true else None.
Proof.
  intros Hp. unfold limit.HandleRequest. rewrite Hp. simpl.
  destruct (selectLoop_premium u fired Hp) as [Hu Hr].
  rewrite Hu, Hr. repeat split. by destruct (existsb _ _).
Qed.

Lemma HandleRequest_premium_witness :
  let u := {| limit.ID := 1; limit.IsPremium := true; limit.TimeUsed := 25 |} in
  let fired := [limit.FromTimer 0 0; limit.FromTimer 3 0;
                limit.FromDone (60 * Second) 60] in
  limit.IsPremium u = true
  /\ limit.started (limit.HandleRequest u fired) = true
  /\ limit.user (limit.HandleRequest u fired) = u
  /\ limit.returned (limit.HandleRequest u fired) <> Some false
  /\ limit.returned (limit.HandleRequest u fired)
     = if existsb limit.is_done fired then Some true else None.
Proof.
  split; [reflexivity|].
  exact (HandleRequest_premium
           {| limit.ID := 1; limit.IsPremium := true; limit.TimeUsed := 25 |}
           [limit.FromTimer 0 0; limit.FromTimer 3 0;
            limit.FromDone (60 * Second) 60] eq_refl).
Defined.

(** X13: for a user who is not premium and has used less than 10
    seconds, HandleRequest starts the process and returns in the first
    round: true when the receive from done is taken, false when the
    timer is; either way the seconds measured are added to TimeUsed
    (in [int64] arithmetic), and nothing else of the user changes. *)
Theorem HandleRequest_accounts (u : limit.User) (f : limit.Fired)
    (rest : list limit.Fired) :
  limit.IsPremium u = false -> limit.TimeUsed u < 10 ->
  let taken := match f with
               | limit.FromDone _ t => t
               | limit.FromTimer _ t => t
               end in
  limit.HandleRequest u (f :: rest)
  = {| limit.returned := Some (limit.is_done f);
       limit.user := {| limit.ID := limit.ID u; limit.IsPremium := false;
                        limit.TimeUsed
                        := limit.wrap64 (limit.TimeUsed u + taken) |};
       limit.started := true |}.
Proof. intros Hp Hused. by apply under_quota. Qed.

Lemma HandleRequest_accounts_witness :
  let u := {| limit.ID := 7; limit.IsPremium := false; limit.TimeUsed := 4 |} in
  limit.IsPremium u = false /\ limit.TimeUsed u < 10
  /\ limit.HandleRequest u [limit.FromDone (3 * Second) 3]
     = {| limit.returned := Some true;
          limit.user := {| limit.ID := 7; limit.IsPremium := false;
                           limit.TimeUsed := limit.wrap64 (4 + 3) |};
          limit.started := true |}.
Proof.
  split; [reflexivity|]. split; [simpl; lia|].
  apply (HandleRequest_accounts
           {| limit.ID := 7; limit.IsPremium := false; limit.TimeUsed := 4 |}
           (limit.FromDone (3 * Second) 3) []); [reflexivity|simpl; lia].
Defined.

(** X14: when HandleRequest returns false for a user who is not premium
    and had used between 0 and 10 seconds, the timer has run its
    (10 - TimeUsed) seconds, so the user has now used 10 seconds or
    more, and the next call of HandleRequest refuses the user without
    starting a process. *)
Theorem HandleRequest_kill_uses_quota (u : limit.User)
    (fired fired' : list limit.Fired) :
  limit.IsPremium u = false -> 0 <= limit.TimeUsed u < 10 ->
  limit.plausible (limit.timeout u) 0 fired ->
  limit.returned (limit.HandleRequest u fired) = Some false ->
  limit.timeout u = (10 - limit.TimeUsed u) * Second
  /\ 10 <= limit.TimeUsed (limit.user (limit.HandleRequest u fired))
  /\ limit.started
       (limit.HandleRequest (limit.user (limit.HandleRequest u fired)) fired')
     = false.
Proof.
  intros Hp Hused Hpl Hret.
  assert (Second = 1000000000) as HS by reflexivity.
  assert (limit.timeout u = (10 - limit.TimeUsed u) * Second) as Htimeout.
  { unfold limit.timeout, limit.timeRemaining.
    rewrite (wrap64_small (10 - limit.TimeUsed u)) by lia.
    rewrite (proj2 (Z.ltb_ge _ _)) by lia.
    rewrite wrap64_small by lia. lia. }
  split; [done|].
  destruct fired as [|[e t|e t] rest].
  - unfold limit.HandleRequest in Hret. rewrite Hp in Hret. simpl in Hret.
    by rewrite (proj2 (Z.leb_gt _ _)) in Hret by lia.
  - rewrite under_quota in Hret by (done || lia). done.
  - rewrite under_quota by (done || lia). simpl.
    destruct Hpl as ([Hlo Hhi] & Hsec & _). rewrite Htimeout in Hlo.
    unfold limit.seconds_of in Hsec.
    assert (10 - limit.TimeUsed u <= e / Second) as Hdiv.
    { apply Z.div_le_lower_bound; lia. }
    assert (e / Second < 2 ^ 62) as Hup.
    { apply Z.div_lt_upper_bound; [lia|]. unfold maxDuration in Hhi. lia. }
    assert (limit.wrap64 (limit.TimeUsed u + t) = limit.TimeUsed u + t) as Hw.
    { apply wrap64_small. unfold limit.seconds_of in *. lia. }
    rewrite Hw. split; [lia|].
    rewrite over_quota; [done|done|]. simpl. lia.
Qed.

Lemma HandleRequest_kill_uses_quota_witness :
  let u := {| limit.ID := 7; limit.IsPremium := false; limit.TimeUsed := 4 |} in
  let fired := [limit.FromTimer (6 * Second) 6] in
  limit.IsPremium u = false /\ 0 <= limit.TimeUsed u < 10
  /\ limit.plausible (limit.timeout u) 0 fired
  /\ limit.returned (limit.HandleRequest u fired) = Some false
  /\ 10 <= limit.TimeUsed (limit.user (limit.HandleRequest u fired)).
Proof.
  assert (limit.plausible
            (limit.timeout {| limit.ID := 7; limit.IsPremium := false;
                              limit.TimeUsed := 4 |}) 0
            [limit.FromTimer (6 * Second) 6]) as Hpl.
  { vm_compute. repeat split; discriminate. }
  split; [reflexivity|]. split; [simpl; lia|]. split; [exact Hpl|].
  split; [reflexivity|].
  refine (proj1 (proj2 (HandleRequest_kill_uses_quota
                          {| limit.ID := 7; limit.IsPremium := false;
                             limit.TimeUsed := 4 |}
                          _ [] eq_refl _ Hpl eq_refl))).
  simpl. lia.
Defined.

(** * Stopping on SIGINT *)

Lemma sigint_Inv_step (e : sigint.Event) (s s' : sigint.State) :
  sigint.Inv s -> sigint.step e s = Some s' -> sigint.Inv s'.
Proof.
  intros [Hsig Hstops Hcon]. unfold sigint.step, sigint.accounted in *.
  destruct s as [p h f m st d]. simpl in *.
  destruct m, e, h, f, p; simpl in *; try discriminate;
    intros Hs; simplify_eq;
    split; unfold sigint.accounted; simpl; (done || lia).
Qed.

Lemma sigint_Inv_run (es : list sigint.Event) (s s' : sigint.State) :
  sigint.Inv s -> sigint.run es s = Some s' -> sigint.Inv s'.
Proof.
  revert s. induction es as [|e es IH]; intros s Hinv; simpl.
  - by intros [= <-].
  - destruct (sigint.step e s) as [s1|] eqn:He; [|done]. simpl.
    apply IH. by eapply sigint_Inv_step.
Qed.

Lemma sigint_Inv_init : sigint.Inv sigint.init.
Proof. split; simpl; (done || lia). Qed.

(** X15: in every run of the program, [proc.Stop()] is called at most
    once, and not before an interrupt was delivered and the first
    goroutine has started the second; the program exits only after at
    least two interrupts were delivered.  The exit does not wait for the
    call of [proc.Stop()]: the witness is a run that exits before the
    call. *)
Theorem exit_needs_two_interrupts (es : list sigint.Event) (s : sigint.State) :
  sigint.run es sigint.init = Some s ->
  (sigint.stops s <= 1)%nat
  /\ (sigint.stops s = 1%nat ->
      (1 <= sigint.delivered s)%nat /\ sigint.forcer s <> sigint.FNone)
  /\ (sigint.main s = sigint.MExited ->
      (2 <= sigint.delivered s)%nat /\ sigint.forcer s = sigint.FDone).
Proof.
  intros Hrun.
  destruct (sigint_Inv_run es _ _ sigint_Inv_init Hrun) as [Hsig Hstops Hcon].
  unfold sigint.accounted in Hsig.
  destruct s as [p h f m st d]. simpl in *.
  split; [destruct h; simpl in *; lia|]. split.
  - intros Hst. destruct h, f, p; simpl in *; try lia; try done;
      split; (done || lia).
  - intros ->. destruct h, f, p; simpl in *; try lia; try done;
      split; (done || lia).
Qed.

Lemma exit_needs_two_interrupts_witness :
  sigint.run sigint.early_quit sigint.init
  = Some (sigint.mkState false sigint.HSpawned sigint.FDone sigint.MExited 0 2)
  /\ (sigint.stops (sigint.mkState false sigint.HSpawned sigint.FDone
                      sigint.MExited 0 2) <= 1)%nat
  /\ (sigint.main (sigint.mkState false sigint.HSpawned sigint.FDone
                     sigint.MExited 0 2) = sigint.MExited ->
      (2 <= sigint.delivered (sigint.mkState false sigint.HSpawned sigint.FDone
                                sigint.MExited 0 2))%nat
      /\ sigint.forcer (sigint.mkState false sigint.HSpawned sigint.FDone
                          sigint.MExited 0 2) = sigint.FDone).
Proof.
  split; [reflexivity|].
  pose proof (exit_needs_two_interrupts sigint.early_quit _ eq_refl) as H.
  exact (conj (proj1 H) (proj2 (proj2 H))).
Defined.

(** X16: the program can be ended from every state it reaches, whether
    or not [proc.Stop()] has been called or has returned: after the
    events of [force_quit], of which at most two are interrupts and none
    is the return of [proc.Stop()], it has exited; the first goroutine
    has at most received its signal and started the second one, and
    [proc.Stop()] has been called no further time. *)
Theorem force_quit_exits (es : list sigint.Event) (s : sigint.State) :
  sigint.run es sigint.init = Some s ->
  sigint.main s <> sigint.MExited ->
  exists s',
    sigint.run (sigint.force_quit s) s = Some s'
    /\ sigint.main s' = sigint.MExited
    /\ sigint.handler s' = match sigint.handler s with
                           | sigint.HWait | sigint.HReceived => sigint.HSpawned
                           | h => h
                           end
    /\ sigint.stops s' = sigint.stops s
    /\ (sigint.interrupts (sigint.force_quit s) <= 2)%nat
    /\ existsb sigint.is_stop_returns (sigint.force_quit s) = false.
Proof.
  intros Hrun Hlive.
  destruct (sigint_Inv_run es _ _ sigint_Inv_init Hrun) as [_ _ Hcon].
  destruct s as [p h f m st d]. simpl in *.
  destruct m, h, f, p; simpl in *; try done;
    eexists; (split; [reflexivity|]); repeat split; simpl; lia.
Qed.

Lemma force_quit_exits_witness :
  exists s',
    sigint.run
      (sigint.force_quit
         (sigint.mkState false sigint.HStopping sigint.FWait sigint.MWait 1 1))
      (sigint.mkState false sigint.HStopping sigint.FWait sigint.MWait 1 1)
    = Some s'
    /\ sigint.main s' = sigint.MExited
    /\ sigint.handler s' = sigint.HStopping
    /\ sigint.stops s' = 1%nat
    /\ (sigint.interrupts
          (sigint.force_quit
             (sigint.mkState false sigint.HStopping sigint.FWait sigint.MWait 1 1))
        <= 2)%nat
    /\ existsb sigint.is_stop_returns
         (sigint.force_quit
            (sigint.mkState false sigint.HStopping sigint.FWait sigint.MWait 1 1))
       = false.
Proof.
  refine (force_quit_exits
            [sigint.Interrupt; sigint.StepHandler; sigint.StepHandler;
             sigint.StepHandler] _ eq_refl _).
  discriminate.
Defined.
